(** * aiobuf: a batching log buffer for asyncio

    A shallow embedding of [src/aiobuf/buffer.py] and [src/aiobuf/format.py].

    - [PyStr]: the Python values the code handles: [str] as a sequence of
      code points, [bytes], ['\n'.join], [str.split('\n')], and the UTF-8
      codec behind [str.encode('utf-8')] and [bytes.decode('utf-8')].
    - [LogBuffer], [TimedLogBuffer], [MaxSizeLogBuffer]: the three classes.
      Every coroutine method is a function from the object's state to an
      [outcome]: the state it leaves behind and whether it returned or raised.
    - [Format]: [format_message] and the [formatter] decorator.
    - [Interleaving]: the methods cut at their [async with self._flush_lock]
      and run as tasks, step by step under any scheduler, and call by call
      as asyncio runs them.

    On atomicity.  The bodies of all three [async with self._flush_lock]
    blocks contain no [await], so under asyncio no task is ever suspended
    while it holds the lock, [Lock.acquire] always takes its fast path, and a
    call of [flush], [__call__] or [close] runs from start to end without
    another task in between.  The class modules therefore give each method as
    one function.  The only real suspension points are [asyncio.sleep] and
    [asyncio.wait_for] in the two [flush_loop]s; they are the states of the
    driver machines.  The steps of [Interleaving] allow more than asyncio
    does (a task may be preempted at the lock), which is what a safety
    property wants; [Interleaving.performs] is asyncio's own schedule, in
    which a task that runs goes to its end. *)

From Stdlib Require Import Ascii.
From stdpp Require Import base list numbers strings.

(** ** Python strings and the UTF-8 codec *)

Module PyStr.

(** A [str] is a sequence of code points.  Python admits every code point
    up to U+10FFFF, lone surrogates included. *)
Definition str := list N.

Definition bytes := list Byte.byte.

(** A string literal of the source (ASCII only). *)
Definition lit (s : string) : str :=
  map Ascii.N_of_ascii (String.list_ascii_of_string s).

(** The newline character. *)
Definition nl : N := 10%N.

(** [sep.join(l)] *)
Fixpoint join (sep : str) (l : list str) : str :=
  match l with
  | [] => []
  | [x] => x
  | x :: rest => x ++ sep ++ join sep rest
  end.

(** [s.split(sep)] for a one-character separator: every occurrence of [sep]
    ends a field, so the result has one more field than [s] has separators
    and is never empty. *)
Fixpoint split (sep : N) (s : str) : list str :=
  match s with
  | [] => [[]]
  | c :: s' =>
      if N.eqb c sep then [] :: split sep s'
      else match split sep s' with
           | [] => [[c]]
           | field :: fields => (c :: field) :: fields
           end
  end.

Definition is_surrogate (c : N) : bool :=
  (N.leb 0xD800 c && N.leb c 0xDFFF)%N.

Definition byte_of_N (n : N) : Byte.byte :=
  default Byte.x00 (Byte.of_N n).

(** The UTF-8 form of one code point; [None] where Python raises
    [UnicodeEncodeError] (a surrogate) or the value is no code point. *)
Definition utf8_encode_cp (c : N) : option (list N) :=
  (if c <? 0x80 then Some [c]
   else if c <? 0x800 then Some [0xC0 + c / 64; 0x80 + c mod 64]
   else if c <? 0x10000 then
     if is_surrogate c then None
     else Some [0xE0 + c / 4096; 0x80 + (c / 64) mod 64; 0x80 + c mod 64]
   else if c <? 0x110000 then
     Some [0xF0 + c / 262144; 0x80 + (c / 4096) mod 64;
           0x80 + (c / 64) mod 64; 0x80 + c mod 64]
   else None)%N.

Fixpoint utf8_encode_N (s : str) : option (list N) :=
  match s with
  | [] => Some []
  | c :: s' =>
      match utf8_encode_cp c, utf8_encode_N s' with
      | Some b, Some bs => Some (b ++ bs)
      | _, _ => None
      end
  end.

(** [s.encode('utf-8')] *)
Definition utf8_encode (s : str) : option bytes :=
  map byte_of_N <$> utf8_encode_N s.

Definition is_cont (b : N) : bool := (N.leb 0x80 b && N.ltb b 0xC0)%N.

(** Decodes the code point at the head of [bs]: the lead byte fixes the
    length, the continuation bytes carry six bits each, and overlong forms,
    surrogates and values above U+10FFFF are refused. *)
Definition utf8_decode_cp (bs : list N) : option (N * list N) :=
  match bs with
  | [] => None
  | b0 :: r0 =>
      (if b0 <? 0x80 then Some (b0, r0)
       else if b0 <? 0xC0 then None
       else if b0 <? 0xE0 then
         match r0 with
         | b1 :: r1 =>
             let c := (b0 - 0xC0) * 64 + (b1 - 0x80) in
             if is_cont b1 && (0x80 <=? c) then Some (c, r1) else None
         | _ => None
         end
       else if b0 <? 0xF0 then
         match r0 with
         | b1 :: b2 :: r2 =>
             let c := (b0 - 0xE0) * 4096 + (b1 - 0x80) * 64 + (b2 - 0x80) in
             if is_cont b1 && is_cont b2 && (0x800 <=? c)
                && negb (is_surrogate c)
             then Some (c, r2) else None
         | _ => None
         end
       else if b0 <? 0xF8 then
         match r0 with
         | b1 :: b2 :: b3 :: r3 =>
             let c := (b0 - 0xF0) * 262144 + (b1 - 0x80) * 4096
                      + (b2 - 0x80) * 64 + (b3 - 0x80) in
             if is_cont b1 && is_cont b2 && is_cont b3
                && (0x10000 <=? c) && (c <? 0x110000)
             then Some (c, r3) else None
         | _ => None
         end
       else None)%N
  end.

(** Decoding consumes at least one byte per code point, so the length of the
    input bounds the number of rounds. *)
Fixpoint utf8_decode_N (fuel : nat) (bs : list N) : option str :=
  match bs with
  | [] => Some []
  | _ :: _ =>
      match fuel with
      | O => None
      | S fuel' =>
          match utf8_decode_cp bs with
          | None => None
          | Some (c, rest) => cons c <$> utf8_decode_N fuel' rest
          end
      end
  end.

(** [b.decode('utf-8')]; [None] where Python raises [UnicodeDecodeError]. *)
Definition utf8_decode (b : bytes) : option str :=
  utf8_decode_N (length b) (map Byte.to_N b).

End PyStr.

Import PyStr.

(** ** Exceptions and outcomes *)

Inductive exn : Type :=
  | BufferClosedError
  | BufferNotFlushedError
  | UnicodeEncodeError
  | UnicodeDecodeError
  | SinkError (code : nat).   (* whatever the sink raises *)

(** What a call of a method leaves behind: it returned or it raised, and in
    both cases the object is in some state afterwards. *)
Inductive outcome (St : Type) : Type :=
  | Returned (s : St)
  | Raised (e : exn) (s : St).

Arguments Returned {St} s.
Arguments Raised {St} e s.

Definition state_of {St} (o : outcome St) : St :=
  match o with Returned s => s | Raised _ s => s end.

Definition error_of {St} (o : outcome St) : option exn :=
  match o with Returned _ => None | Raised e _ => Some e end.

(** The callable [fn] handed to the constructor.  The buffer only ever calls
    it with one batch and does not look at what it returns, so all that
    matters is whether the call raises; that may depend on the batch and on
    the calls made before. *)
Definition sink := list str -> str -> option exn.

(** A coroutine method with one [async with self._flush_lock] block:
    [enter] is the code before the block and tells whether the block is
    reached at all, [locked] is the block, [leave] the code after it (skipped
    when the block raises). *)
Record method (St : Type) : Type := {
  enter : St -> bool;
  locked : St -> outcome St;
  leave : St -> St
}.

Arguments enter {St} m s.
Arguments locked {St} m s.
Arguments leave {St} m s.

(** The method run with nobody else in between. *)
Definition atomically {St} (m : method St) (s : St) : outcome St :=
  if enter m s then
    match locked m s with
    | Returned s' => Returned (leave m s')
    | Raised e s' => Raised e s'
    end
  else Returned s.

(** ** class LogBuffer *)

Module LogBuffer.

(** [fn_calls] is not an attribute of the object: it records the arguments
    [self._fn] has been called with, oldest first. *)
Record state : Type := {
  _buffer : list str;
  _open : bool;
  fn_calls : list str
}.

Definition set_buffer (b : list str) (s : state) : state :=
  {| _buffer := b; _open := _open s; fn_calls := fn_calls s |}.

Definition set_open (o : bool) (s : state) : state :=
  {| _buffer := _buffer s; _open := o; fn_calls := fn_calls s |}.

Definition record_call (batch : str) (s : state) : state :=
  {| _buffer := _buffer s; _open := _open s;
     fn_calls := fn_calls s ++ [batch] |}.

(** The calls a client can make on the object. *)
Inductive op : Type :=
  | Call (message : str)
  | Flush
  | Close.

(** [__init__] *)
Definition init : state :=
  {| _buffer := []; _open := true; fn_calls := [] |}.

Section Methods.
Variable _fn : sink.
Variable _formatter : option (str -> str).

(** [not self._buffer] *)
Definition is_empty (s : state) : bool :=
  match _buffer s with [] => true | _ :: _ => false end.

(** The block of [flush]: call the sink with the joined batch; when the
    call raises, the assignment after it is not reached. *)
Definition flush_locked (s : state) : outcome state :=
  let batch := join [nl] (_buffer s) in
  match _fn (fn_calls s) batch with
  | Some e => Raised e (record_call batch s)
  | None => Returned (set_buffer [] (record_call batch s))
  end.

Definition flush (s : state) : outcome state :=
  if is_empty s then Returned s else flush_locked s.

(** [if self._formatter is not None: message = self._formatter(message)] *)
Definition format (message : str) : str :=
  match _formatter with
  | Some f => f message
  | None => message
  end.

(** The block of [__call__], on the formatted message. *)
Definition call_locked (message : str) (s : state) : outcome state :=
  if negb (_open s) then Raised BufferClosedError s
  else Returned (set_buffer (_buffer s ++ [message]) s).

Definition __call__ (message : str) (s : state) : outcome state :=
  call_locked (format message) s.

Definition close (s : state) : state := set_open false s.

(** [__del__]: the exception it raises, if any. *)
Definition __del__ (s : state) : option exn :=
  if is_empty s then None else Some BufferNotFlushedError.

Definition flush_method : method state :=
  {| enter := fun s => negb (is_empty s);
     locked := flush_locked;
     leave := fun s => s |}.

Definition call_method (message : str) : method state :=
  {| enter := fun _ => true;
     locked := call_locked (format message);
     leave := fun s => s |}.

Definition close_method : method state :=
  {| enter := fun _ => true;
     locked := fun s => Returned (close s);
     leave := fun s => s |}.

Definition exec (o : op) (s : state) : outcome state :=
  match o with
  | Call message => __call__ message s
  | Flush => flush s
  | Close => Returned (close s)
  end.

(** A sequence of calls; a call that raises leaves its state behind and
    the next call goes on from there. *)
Definition run (ops : list op) (s : state) : state :=
  fold_left (fun s o => state_of (exec o s)) ops s.

(** The messages are appended one after the other, stopping at the first
    call that raises. *)
Fixpoint append_all (messages : list str) (s : state) : outcome state :=
  match messages with
  | [] => Returned s
  | m :: rest =>
      match __call__ m s with
      | Returned s' => append_all rest s'
      | Raised e s' => Raised e s'
      end
  end.
End Methods.

End LogBuffer.

(** ** class TimedLogBuffer(LogBuffer) *)

Module TimedLogBuffer.
Import LogBuffer.

(** Where the coroutine [flush_loop] is: suspended in [asyncio.sleep],
    returned, or ended by an exception. *)
Inductive driver : Type :=
  | Sleeping
  | Stopped
  | Failed (e : exn).

(** What happens around the driver: calls by other tasks, and the end of
    the driver's sleep. *)
Inductive event : Type :=
  | Client (o : op)
  | Wake.

Inductive action : Type :=
  | Start
  | Ev (e : event).

Record system : Type := {
  drv : option driver;   (* [None]: [flush_loop] has not been started *)
  buf : state
}.

Section Methods.
Variable _fn : sink.
Variable _formatter : option (str -> str).

(** [flush_loop] from the test of [while self._open] up to the next
    [asyncio.sleep] or to its end. *)
Definition loop_head (s : state) : driver * state :=
  if _open s then
    match flush _fn s with
    | Returned s' => (Sleeping, s')
    | Raised e s' => (Failed e, s')
    end
  else
    match flush _fn s with
    | Returned s' => (Stopped, s')
    | Raised e s' => (Failed e, s')
    end.

Definition flush_loop (s : state) : driver * state := loop_head s.

Definition started (r : driver * state) : system :=
  {| drv := Some r.1; buf := r.2 |}.

(** One event; [None] when the event cannot happen in this state. *)
Definition step (a : action) (sys : system) : option system :=
  match a with
  | Start =>
      match drv sys with
      | None => Some (started (flush_loop (buf sys)))
      | Some _ => None
      end
  | Ev (Client o) =>
      Some {| drv := drv sys; buf := state_of (exec _fn _formatter o (buf sys)) |}
  | Ev Wake =>
      match drv sys with
      | Some Sleeping => Some (started (loop_head (buf sys)))
      | _ => None
      end
  end.

Fixpoint steps (l : list action) (sys : system) : option system :=
  match l with
  | [] => Some sys
  | a :: l' =>
      match step a sys with
      | Some sys' => steps l' sys'
      | None => None
      end
  end.
End Methods.

Definition boot : system := {| drv := None; buf := init |}.

End TimedLogBuffer.

(** ** class MaxSizeLogBuffer(TimedLogBuffer) *)

Module MaxSizeLogBuffer.
Import LogBuffer.

(** The attributes of the base classes, then [self._size] and the flag of
    the [asyncio.Event] [self.SizeExceeded]. *)
Record state : Type := {
  super : LogBuffer.state;
  _size : Z;
  SizeExceeded : bool
}.

Definition set_super (b : LogBuffer.state) (s : state) : state :=
  {| super := b; _size := _size s; SizeExceeded := SizeExceeded s |}.

Definition set_size (n : Z) (s : state) : state :=
  {| super := super s; _size := n; SizeExceeded := SizeExceeded s |}.

Definition set_event (b : bool) (s : state) : state :=
  {| super := super s; _size := _size s; SizeExceeded := b |}.

(** [__init__] *)
Definition init : state :=
  {| super := LogBuffer.init; _size := 0; SizeExceeded := false |}.

(** Why [asyncio.wait_for] came back: the event was set, or the time was
    up ([asyncio.TimeoutError]). *)
Inductive reason : Type :=
  | SizeSignal
  | Timeout.

(** The message the driver appends before it flushes. *)
Definition marker (w : reason) : str :=
  match w with
  | SizeSignal => lit "[flusher] maximum buffer size exceeded"
  | Timeout => lit "[flusher] maximum buffer time exceeded"
  end.

(** Where the coroutine [flush_loop] is: suspended in [asyncio.wait_for],
    returned, or ended by an exception. *)
Inductive driver : Type :=
  | Waiting
  | Stopped
  | Failed (e : exn).

Inductive event : Type :=
  | Client (o : op)
  | Wake (w : reason).

Inductive action : Type :=
  | Start
  | Ev (e : event).

Record system : Type := {
  drv : option driver;   (* [None]: [flush_loop] has not been started *)
  buf : state
}.

Definition boot : system := {| drv := None; buf := init |}.

Section Methods.
Variable _fn : sink.
Variable _formatter : option (str -> str).
Variable _max_size : Z.

(** The block of [__call__], on the formatted message: the message is
    appended first, its size is computed and added after that. *)
Definition call_locked (message : str) (s : state) : outcome state :=
  if negb (_open (super s)) then Raised BufferClosedError s
  else
    let s1 := set_super (set_buffer (_buffer (super s) ++ [message]) (super s)) s in
    match utf8_encode message with
    | None => Raised UnicodeEncodeError s1
    | Some b => Returned (set_size (_size s1 + Z.of_nat (length b)) s1)
    end.

(** [if self._size > self._max_size: self.SizeExceeded.set()] *)
Definition call_signal (s : state) : state :=
  if (_size s >? _max_size)%Z then set_event true s else s.

Definition __call__ (message : str) (s : state) : outcome state :=
  match call_locked (format _formatter message) s with
  | Returned s' => Returned (call_signal s')
  | Raised e s' => Raised e s'
  end.

(** The block of [flush]. *)
Definition flush_locked (s : state) : outcome state :=
  let batch := join [nl] (_buffer (super s)) in
  match _fn (fn_calls (super s)) batch with
  | Some e => Raised e (set_super (record_call batch (super s)) s)
  | None =>
      Returned {| super := set_buffer [] (record_call batch (super s));
                  _size := 0;
                  SizeExceeded := false |}
  end.

Definition flush (s : state) : outcome state :=
  if is_empty (super s) then Returned s else flush_locked s.

(** [close] is inherited. *)
Definition close (s : state) : state :=
  set_super (LogBuffer.close (super s)) s.

Definition flush_method : method state :=
  {| enter := fun s => negb (is_empty (super s));
     locked := flush_locked;
     leave := fun s => s |}.

Definition call_method (message : str) : method state :=
  {| enter := fun _ => true;
     locked := call_locked (format _formatter message);
     leave := call_signal |}.

Definition close_method : method state :=
  {| enter := fun _ => true;
     locked := fun s => Returned (close s);
     leave := fun s => s |}.

Definition exec (o : op) (s : state) : outcome state :=
  match o with
  | Call message => __call__ message s
  | Flush => flush s
  | Close => Returned (close s)
  end.

Definition run (ops : list op) (s : state) : state :=
  fold_left (fun s o => state_of (exec o s)) ops s.

Definition method_of (o : op) : method state :=
  match o with
  | Call message => call_method message
  | Flush => flush_method
  | Close => close_method
  end.

Fixpoint append_all (messages : list str) (s : state) : outcome state :=
  match messages with
  | [] => Returned s
  | m :: rest =>
      match __call__ m s with
      | Returned s' => append_all rest s'
      | Raised e s' => Raised e s'
      end
  end.

(** The message of a call has a UTF-8 form once formatted. *)
Definition encodable (o : op) : Prop :=
  match o with
  | Call message => utf8_encode (format _formatter message) <> None
  | _ => True
  end.

(** [flush_loop] from the test of [while self._open] up to the next
    [asyncio.wait_for] or to its end. *)
Definition loop_head (s : state) : driver * state :=
  if _open (super s) then (Waiting, s)
  else
    match flush s with
    | Returned s' => (Stopped, s')
    | Raised e s' => (Failed e, s')
    end.

(** [flush_loop] from the return of [asyncio.wait_for] on.  On
    [SizeSignal] the marker is appended inside the [try]; on [Timeout]
    inside the handler of [asyncio.TimeoutError].  [__call__] raises no
    [asyncio.TimeoutError], so in both places what it raises leaves
    [flush_loop]. *)
Definition resume (w : reason) (s : state) : driver * state :=
  match __call__ (marker w) s with
  | Raised e s1 => (Failed e, s1)
  | Returned s1 =>
      match flush s1 with
      | Raised e s2 => (Failed e, s2)
      | Returned s2 => loop_head s2
      end
  end.

Definition flush_loop (s : state) : driver * state := loop_head s.

Definition started (r : driver * state) : system :=
  {| drv := Some r.1; buf := r.2 |}.

(** One event; [None] when the event cannot happen in this state: only a
    waiting driver wakes up.  A wake-up on the signal does not ask for the
    event to be set still: [Event.set()] ends the driver's wait, and a
    [clear()] that comes before the driver runs again does not take that
    back. *)
Definition step (a : action) (sys : system) : option system :=
  match a with
  | Start =>
      match drv sys with
      | None => Some (started (flush_loop (buf sys)))
      | Some _ => None
      end
  | Ev (Client o) =>
      Some {| drv := drv sys; buf := state_of (exec o (buf sys)) |}
  | Ev (Wake w) =>
      match drv sys with
      | Some Waiting => Some (started (resume w (buf sys)))
      | _ => None
      end
  end.

Fixpoint steps (l : list action) (sys : system) : option system :=
  match l with
  | [] => Some sys
  | a :: l' =>
      match step a sys with
      | Some sys' => steps l' sys'
      | None => None
      end
  end.
End Methods.

(** The sum of the UTF-8 lengths of the pending messages; [None] when one
    of them has no UTF-8 form. *)
Fixpoint byte_size (pending : list str) : option Z :=
  match pending with
  | [] => Some 0%Z
  | m :: rest =>
      match utf8_encode m, byte_size rest with
      | Some b, Some n => Some (Z.of_nat (length b) + n)%Z
      | _, _ => None
      end
  end.

(** [self._size] is the byte size of what is pending, and not negative. *)
Definition size_tracks (s : state) : Prop :=
  byte_size (_buffer (super s)) = Some (_size s) /\ (0 <= _size s)%Z.

(** With nothing pending the count is zero and the event is clear. *)
Definition settled (s : state) : Prop :=
  _buffer (super s) = [] -> _size s = 0%Z /\ SizeExceeded s = false.

End MaxSizeLogBuffer.

(** ** format.py *)

Module Format.

(** [Union[str, bytes]] *)
Inductive message : Type :=
  | Text (s : str)
  | Bytes (b : bytes).

Inductive result (A : Type) : Type :=
  | Ok (a : A)
  | Err (e : exn).

Arguments Ok {A} a.
Arguments Err {A} e.

Definition format_message (m : message) (formatter : str -> str) : result str :=
  match (match m with
         | Bytes b => utf8_decode b
         | Text s => Some s
         end) with
  | None => Err UnicodeDecodeError
  | Some text => Ok (join [nl] (map formatter (split nl text)))
  end.

(** The decorator: [functools.partial(format_message, formatter=fn)]. *)
Definition formatter (fn : str -> str) : message -> result str :=
  fun m => format_message m fn.

(** A decorated formatter as a buffer applies it, to a [str]. *)
Definition on_text (fn : str -> str) (s : str) : str :=
  join [nl] (map fn (split nl s)).

End Format.

(** ** The methods as tasks on a shared object *)

Module Interleaving.

(** Where a task is in its method: just called, waiting for the lock,
    inside the block, past the block, or done (with the exception that
    ended it, if any). *)
Inductive pc : Type :=
  | Called
  | Blocked
  | Holding
  | Leaving
  | Finished (r : option exn).

Section Tasks.
Context {St : Type}.

Record task : Type := {
  code : method St;
  at_pc : pc
}.

(** The object, the holder of [self._flush_lock] if it is held, and the
    tasks.  asyncio's lock stores only that it is held; the holder is kept
    here for the proofs. *)
Record config : Type := {
  mem : St;
  lock : option nat;
  tasks : list task
}.

Inductive move : Type :=
  | Spawn (m : method St)
  | Step (i : nat).

Definition at_ (p : pc) (t : task) : task :=
  {| code := code t; at_pc := p |}.

(** Task [i], which is [t], takes its next step. *)
Definition advance (i : nat) (t : task) (c : config) : option config :=
  match at_pc t with
  | Called =>
      Some {| mem := mem c; lock := lock c;
              tasks := <[i := at_ (if enter (code t) (mem c)
                                   then Blocked else Finished None) t]>
                         (tasks c) |}
  | Blocked =>
      match lock c with
      | Some _ => None
      | None =>
          Some {| mem := mem c; lock := Some i;
                  tasks := <[i := at_ Holding t]> (tasks c) |}
      end
  | Holding =>
      match locked (code t) (mem c) with
      | Returned s =>
          Some {| mem := s; lock := None;
                  tasks := <[i := at_ Leaving t]> (tasks c) |}
      | Raised e s =>
          Some {| mem := s; lock := None;
                  tasks := <[i := at_ (Finished (Some e)) t]> (tasks c) |}
      end
  | Leaving =>
      Some {| mem := leave (code t) (mem c); lock := lock c;
              tasks := <[i := at_ (Finished None) t]> (tasks c) |}
  | Finished _ => None
  end.

Definition step (mv : move) (c : config) : option config :=
  match mv with
  | Spawn m =>
      Some {| mem := mem c; lock := lock c;
              tasks := tasks c ++ [{| code := m; at_pc := Called |}] |}
  | Step i =>
      match tasks c !! i with
      | Some t => advance i t c
      | None => None
      end
  end.

Fixpoint steps (l : list move) (c : config) : option config :=
  match l with
  | [] => Some c
  | mv :: l' =>
      match step mv c with
      | Some c' => steps l' c'
      | None => None
      end
  end.

(** The object alone: no task, the lock free. *)
Definition idle (s : St) : config :=
  {| mem := s; lock := None; tasks := [] |}.


(** The moves of task [k] running [m] from its call to its end, when
    nobody else moves, on an object in state [s]. *)
Definition turn (k : nat) (m : method St) (s : St) : list move :=
  Spawn m ::
  repeat (Step k)
    (if enter m s
     then match locked m s with Returned _ => 4 | Raised _ _ => 3 end
     else 1).

(** The schedule asyncio gives these methods: each call runs to its end
    before the next one starts. *)
Fixpoint serial (k : nat) (ms : list (method St)) (s : St) : list move :=
  match ms with
  | [] => []
  | m :: ms' => turn k m s ++ serial (S k) ms' (state_of (atomically m s))
  end.

(** The calls made one after the other. *)
Definition call_all (ms : list (method St)) (s : St) : St :=
  fold_left (fun s m => state_of (atomically m s)) ms s.

Definition done_with (m : method St) (s : St) : task :=
  {| code := m; at_pc := Finished (error_of (atomically m s)) |}.


(** Task [i] moves until it has finished or cannot move, for at most
    [fuel] steps. *)
Fixpoint run_task (fuel : nat) (i : nat) (c : config) : config :=
  match fuel with
  | O => c
  | S fuel' =>
      match step (Step i) c with
      | Some c' => run_task fuel' i c'
      | None => c
      end
  end.

(** What happens under asyncio: a method is called, which creates a task
    that has not run yet; a task runs.  No step of these methods suspends
    the task (the lock is free when it is asked for, and no block holds an
    [await]), so a task that runs goes to its end, which takes at most four
    steps. *)
Inductive act : Type :=
  | Invoke (m : method St)
  | Run (i : nat).

Definition perform (a : act) (c : config) : config :=
  match a with
  | Invoke m =>
      {| mem := mem c; lock := lock c;
         tasks := tasks c ++ [{| code := m; at_pc := Called |}] |}
  | Run i => run_task 4 i c
  end.

Definition performs (l : list act) (c : config) : config :=
  fold_left (fun c a => perform a c) l c.


End Tasks.

Arguments task St : clear implicits.
Arguments config St : clear implicits.
Arguments move St : clear implicits.
Arguments act St : clear implicits.

End Interleaving.

(** ** What the calls stored and what the sink accepted *)

Module Delivery.
Import LogBuffer.

(** The messages a sequence of calls puts into [self._buffer], in order:
    those of the calls of [__call__] made while the buffer is open, as the
    formatter returns them.  [opened] is [self._open] at the start. *)
Fixpoint stored (fmt : option (str -> str)) (ops : list op) (opened : bool)
    : list str :=
  match ops with
  | [] => []
  | Call message :: rest =>
      if opened then format fmt message :: stored fmt rest opened
      else stored fmt rest opened
  | Flush :: rest => stored fmt rest opened
  | Close :: rest => stored fmt rest false
  end.

(** Of the calls of the sink recorded in [calls], made after the calls
    [before], the batches of those that returned. *)
Fixpoint accepted_calls (fn : sink) (before calls : list str) : list str :=
  match calls with
  | [] => []
  | batch :: rest =>
      match fn before batch with
      | None => batch :: accepted_calls fn (before ++ [batch]) rest
      | Some _ => accepted_calls fn (before ++ [batch]) rest
      end
  end.

Definition delivered (fn : sink) (calls : list str) : list str :=
  accepted_calls fn [] calls.

(** What the time-only driver does to the buffer at an action: one call
    of [flush] when it starts and at each wake-up. *)
Definition timed_op_of (a : TimedLogBuffer.action) : op :=
  match a with
  | TimedLogBuffer.Start => Flush
  | TimedLogBuffer.Ev TimedLogBuffer.Wake => Flush
  | TimedLogBuffer.Ev (TimedLogBuffer.Client o) => o
  end.

(** The calls other tasks make in a run of the size-aware driver all carry
    messages with a UTF-8 form. *)
Definition encodable_action
    (fmt : option (str -> str)) (a : MaxSizeLogBuffer.action) : Prop :=
  match a with
  | MaxSizeLogBuffer.Ev (MaxSizeLogBuffer.Client o) =>
      MaxSizeLogBuffer.encodable fmt o
  | _ => True
  end.

(** The event is set exactly when the count is above the limit. *)
Definition event_follows_size (max : Z) (s : MaxSizeLogBuffer.state) : Prop :=
  MaxSizeLogBuffer.SizeExceeded s = true
  <-> (MaxSizeLogBuffer._size s > max)%Z.

End Delivery.

(** ** format.py with a per-line function that reads a clock *)

Module Clocked.
Import Format.

Section PerLine.
Context {W : Type}.

(** [formatter(line) for line in lines]: the per-line function is called
    on the lines in order, each call seeing what the calls before left. *)
Fixpoint each_line (formatter : str -> W -> str * W)
    (lines : list str) (w : W) : list str * W :=
  match lines with
  | [] => ([], w)
  | line :: rest =>
      let (out, w1) := formatter line w in
      let (outs, w2) := each_line formatter rest w1 in
      (out :: outs, w2)
  end.

(** [format_message] for a per-line function with effects on [W]. *)
Definition format_message (m : message) (formatter : str -> W -> str * W)
    (w : W) : result str * W :=
  match (match m with
         | Bytes b => utf8_decode b
         | Text s => Some s
         end) with
  | None => (Err UnicodeDecodeError, w)
  | Some text =>
      let (outs, w') := each_line formatter (split nl text) w in
      (Ok (join [nl] outs), w')
  end.

(** A per-line function without effects. *)
Definition pure (fn : str -> str) : str -> W -> str * W :=
  fun line w => (fn line, w).
End PerLine.

Section Timestamp.
(** What [time_fn] returns (a [datetime]); the value its [n]-th call
    returns; and [format(value, time_format)]. *)
Variable T : Type.
Variable time_fn : nat -> T.
Variable strftime : T -> str -> str.

(** The default of [time_format]. *)
Definition default_time_format : str := lit "%Y-%m-%d %H:%M:%S".

(** [f'[{time_fn():{time_format}}]: {line}'], the state being the number
    of calls of [time_fn] so far. *)
Definition timestamp_format (time_format : str) (line : str) (n : nat)
    : str * nat :=
  (lit "[" ++ strftime (time_fn n) time_format ++ lit "]: " ++ line, S n).

Definition create_timestamp_formatter (time_format : str)
    : message -> nat -> result str * nat :=
  fun m n => format_message m (timestamp_format time_format) n.

(** The line of index [i] of a message formatted when [time_fn] has been
    called [n] times. *)
Definition stamped (time_format : str) (n i : nat) (line : str) : str :=
  lit "[" ++ strftime (time_fn (n + i)) time_format ++ lit "]: " ++ line.
End Timestamp.

End Clocked.

(** ** Sinks for the scenarios *)

(** A sink that never raises, one that always does, and one that raises on
    its first call only. *)
Definition quiet : sink := fun _ _ => None.

Definition broken : sink := fun _ _ => Some (SinkError 1).

Definition flaky : sink :=
  fun calls _ => match calls with [] => Some (SinkError 1) | _ => None end.

(** * Properties *)

Ltac bool_cases :=
  repeat match goal with
  | |- context [N.ltb ?a ?b] =>
      destruct (N.ltb_spec a b); try (exfalso; lia)
  | |- context [N.leb ?a ?b] =>
      destruct (N.leb_spec a b); try (exfalso; lia)
  | H : context [N.ltb ?a ?b] |- _ =>
      destruct (N.ltb_spec a b); try (exfalso; lia)
  | H : context [N.leb ?a ?b] |- _ =>
      destruct (N.leb_spec a b); try (exfalso; lia)
  end.

Ltac N_cases :=
  repeat match goal with
  | H : context [N.ltb ?a ?b] |- _ =>
      destruct (N.ltb_spec a b); try discriminate
  | H : context [N.leb ?a ?b] |- _ =>
      destruct (N.leb_spec a b); try discriminate
  end.

(** The digits of a code point in base 64, named so that the arithmetic
    that follows is linear. *)
Ltac base64_digits c :=
  replace (c / 262144)%N with (c / 64 / 64 / 64)%N in *
    by (now rewrite !N.Div0.div_div);
  replace (c / 4096)%N with (c / 64 / 64)%N in *
    by (now rewrite !N.Div0.div_div);
  pose proof (N.div_mod' c 64);
  pose proof (N.div_mod' (c / 64) 64);
  pose proof (N.div_mod' (c / 64 / 64) 64);
  pose proof (N.mod_upper_bound c 64 ltac:(discriminate));
  pose proof (N.mod_upper_bound (c / 64) 64 ltac:(discriminate));
  pose proof (N.mod_upper_bound (c / 64 / 64) 64 ltac:(discriminate));
  generalize dependent (c / 64 / 64 / 64)%N; intro;
  generalize dependent ((c / 64 / 64) mod 64)%N; intro;
  generalize dependent (c / 64 / 64)%N; intro;
  generalize dependent ((c / 64) mod 64)%N; intro;
  generalize dependent (c / 64)%N; intro;
  generalize dependent (c mod 64)%N; intro; intros.

(** ** The model on small inputs *)

Example join_two : join [nl] [lit "a"; lit "b"] = lit "a" ++ [nl] ++ lit "b".
Proof. reflexivity. Qed.

Example join_none : join [nl] [] = [].
Proof. reflexivity. Qed.

Example split_trailing_newline :
  split nl (lit "a" ++ [nl]) = [lit "a"; []].
Proof. reflexivity. Qed.

Example split_empty : split nl [] = [[]].
Proof. reflexivity. Qed.

Example encode_euro_sign :
  utf8_encode [0x20AC%N] = Some [Byte.xe2; Byte.x82; Byte.xac].
Proof. reflexivity. Qed.

Example encode_lone_surrogate : utf8_encode [0xD800%N] = None.
Proof. reflexivity. Qed.

Example decode_euro_sign :
  utf8_decode [Byte.xe2; Byte.x82; Byte.xac] = Some [0x20AC%N].
Proof. reflexivity. Qed.

Example decode_overlong_form : utf8_decode [Byte.xc0; Byte.x80] = None.
Proof. reflexivity. Qed.

Example decode_encoded_surrogate :
  utf8_decode [Byte.xed; Byte.xa0; Byte.x80] = None.
Proof. reflexivity. Qed.

(** A time-only buffer, "a" and "b" appended, one round of the driver:
    the sink has been called once, with "a\nb". *)
Example timed_round :
  TimedLogBuffer.steps quiet None
    [TimedLogBuffer.Start;
     TimedLogBuffer.Ev (TimedLogBuffer.Client (LogBuffer.Call (lit "a")));
     TimedLogBuffer.Ev (TimedLogBuffer.Client (LogBuffer.Call (lit "b")));
     TimedLogBuffer.Ev TimedLogBuffer.Wake]
    TimedLogBuffer.boot
  = Some {| TimedLogBuffer.drv := Some TimedLogBuffer.Sleeping;
            TimedLogBuffer.buf :=
              {| LogBuffer._buffer := []; LogBuffer._open := true;
                 LogBuffer.fn_calls := [lit "a" ++ [nl] ++ lit "b"] |} |}.
Proof. reflexivity. Qed.

(** Neither driver catches what the sink raises: the exception ends
    [flush_loop], and the message stays pending. *)
Example timed_round_broken_sink :
  TimedLogBuffer.steps broken None
    [TimedLogBuffer.Start;
     TimedLogBuffer.Ev (TimedLogBuffer.Client (LogBuffer.Call (lit "a")));
     TimedLogBuffer.Ev TimedLogBuffer.Wake]
    TimedLogBuffer.boot
  = Some {| TimedLogBuffer.drv :=
              Some (TimedLogBuffer.Failed (SinkError 1));
            TimedLogBuffer.buf :=
              {| LogBuffer._buffer := [lit "a"]; LogBuffer._open := true;
                 LogBuffer.fn_calls := [lit "a"] |} |}.
Proof. reflexivity. Qed.

(** A size-aware buffer with [max_size=10] and a message of 12 bytes: the
    event is set, and the driver's round delivers the message followed by
    the size marker. *)
Example max_size_round :
  MaxSizeLogBuffer.steps quiet None 10
    [MaxSizeLogBuffer.Start;
     MaxSizeLogBuffer.Ev
       (MaxSizeLogBuffer.Client (LogBuffer.Call (lit "twelve bytes")));
     MaxSizeLogBuffer.Ev (MaxSizeLogBuffer.Wake MaxSizeLogBuffer.SizeSignal)]
    MaxSizeLogBuffer.boot
  = Some {| MaxSizeLogBuffer.drv := Some MaxSizeLogBuffer.Waiting;
            MaxSizeLogBuffer.buf :=
              {| MaxSizeLogBuffer.super :=
                   {| LogBuffer._buffer := []; LogBuffer._open := true;
                      LogBuffer.fn_calls :=
                        [lit "twelve bytes" ++ [nl]
                         ++ lit "[flusher] maximum buffer size exceeded"] |};
                 MaxSizeLogBuffer._size := 0;
                 MaxSizeLogBuffer.SizeExceeded := false |} |}.
Proof. reflexivity. Qed.

(** Below the limit the timeout wakes the driver. *)
Example max_size_timeout_round :
  MaxSizeLogBuffer.steps quiet None 120
    [MaxSizeLogBuffer.Start;
     MaxSizeLogBuffer.Ev (MaxSizeLogBuffer.Client (LogBuffer.Call (lit "a")));
     MaxSizeLogBuffer.Ev (MaxSizeLogBuffer.Wake MaxSizeLogBuffer.Timeout)]
    MaxSizeLogBuffer.boot
  = Some {| MaxSizeLogBuffer.drv := Some MaxSizeLogBuffer.Waiting;
            MaxSizeLogBuffer.buf :=
              {| MaxSizeLogBuffer.super :=
                   {| LogBuffer._buffer := []; LogBuffer._open := true;
                      LogBuffer.fn_calls :=
                        [lit "a" ++ [nl]
                         ++ lit "[flusher] maximum buffer time exceeded"] |};
                 MaxSizeLogBuffer._size := 0;
                 MaxSizeLogBuffer.SizeExceeded := false |} |}.
Proof. reflexivity. Qed.

(** The event is set, another task flushes and so clears it, and only then
    does the driver run again: it still comes back on the signal, and
    delivers the size marker alone. *)
Example max_size_stale_signal :
  MaxSizeLogBuffer.steps quiet None 3
    [MaxSizeLogBuffer.Start;
     MaxSizeLogBuffer.Ev
       (MaxSizeLogBuffer.Client (LogBuffer.Call (lit "abcd")));
     MaxSizeLogBuffer.Ev (MaxSizeLogBuffer.Client LogBuffer.Flush);
     MaxSizeLogBuffer.Ev (MaxSizeLogBuffer.Wake MaxSizeLogBuffer.SizeSignal)]
    MaxSizeLogBuffer.boot
  = Some {| MaxSizeLogBuffer.drv := Some MaxSizeLogBuffer.Waiting;
            MaxSizeLogBuffer.buf :=
              {| MaxSizeLogBuffer.super :=
                   {| LogBuffer._buffer := []; LogBuffer._open := true;
                      LogBuffer.fn_calls :=
                        [lit "abcd";
                         lit "[flusher] maximum buffer size exceeded"] |};
                 MaxSizeLogBuffer._size := 0;
                 MaxSizeLogBuffer.SizeExceeded := false |} |}.
Proof. reflexivity. Qed.

(** ** Joining and splitting *)

Section JoinSplit.
Variable sep : N.

Lemma split_not_nil (s : str) : split sep s <> [].
Proof.
  destruct s as [|c s]; simpl; [discriminate|].
  destruct (N.eqb c sep); [discriminate|].
  destruct (split sep s); discriminate.
Qed.

Lemma join_cons_field (c : N) (field : str) (fields : list str) :
  join [sep] ((c :: field) :: fields) = c :: join [sep] (field :: fields).
Proof. destruct fields; reflexivity. Qed.

Lemma join_split (s : str) : join [sep] (split sep s) = s.
Proof.
  induction s as [|c s IH]; [reflexivity|].
  simpl. destruct (N.eqb_spec c sep) as [->|Hne].
  - pose proof (split_not_nil s) as Hs.
    destruct (split sep s) as [|field fields] eqn:E; [contradiction|].
    simpl in *. now rewrite IH.
  - pose proof (split_not_nil s) as Hs.
    destruct (split sep s) as [|field fields] eqn:E; [contradiction|].
    rewrite join_cons_field. now rewrite IH.
Qed.
End JoinSplit.

Lemma join_snoc (sep : str) (l : list str) (m : str) :
  l <> [] -> join sep (l ++ [m]) = join sep l ++ sep ++ m.
Proof.
  induction l as [|x l IH]; [contradiction|]. intros _.
  destruct l as [|y l]; [reflexivity|].
  change (join sep ((x :: y :: l) ++ [m]))
    with (x ++ sep ++ join sep ((y :: l) ++ [m])).
  rewrite IH by discriminate.
  change (join sep (x :: y :: l)) with (x ++ sep ++ join sep (y :: l)).
  now rewrite <- !app_assoc.
Qed.

Lemma map_id_str (l : list str) : map (fun line : str => line) l = l.
Proof. induction l as [|x l IH]; simpl; [|rewrite IH]; reflexivity. Qed.

Section Lines.
Variable sep : N.

Lemma split_no_sep (s : str) : ~ In sep s -> split sep s = [s].
Proof.
  induction s as [|c s IH]; intros Hs; [reflexivity|]. simpl.
  destruct (N.eqb_spec c sep) as [->|Hne]; [destruct Hs; now left|].
  rewrite IH; [reflexivity|]. intros Hin. apply Hs. now right.
Qed.

Lemma split_app_sep (x rest : str) :
  ~ In sep x -> split sep (x ++ sep :: rest) = x :: split sep rest.
Proof.
  induction x as [|c x IH]; intros Hx; simpl.
  - now rewrite N.eqb_refl.
  - destruct (N.eqb_spec c sep) as [->|Hne]; [destruct Hx; now left|].
    rewrite IH; [reflexivity|]. intros Hin. apply Hx. now right.
Qed.

(** Joining lines and splitting again gives the lines back. *)
Lemma split_join (lines : list str) :
  Forall (fun line => ~ In sep line) lines -> lines <> [] ->
  split sep (join [sep] lines) = lines.
Proof.
  induction 1 as [|x l Hx Hl IH]; intros Hne; [contradiction|].
  destruct l as [|y l]; [now apply split_no_sep|].
  change (join [sep] (x :: y :: l)) with (x ++ sep :: join [sep] (y :: l)).
  rewrite split_app_sep by assumption. now rewrite IH.
Qed.

Lemma split_length (s : str) :
  length (split sep s) = S (count_occ N.eq_dec s sep).
Proof.
  induction s as [|c s IH]; [reflexivity|]. simpl.
  destruct (N.eqb_spec c sep) as [->|Hne].
  - destruct (N.eq_dec sep sep); [|contradiction]. simpl. now rewrite IH.
  - destruct (N.eq_dec c sep); [contradiction|].
    pose proof (split_not_nil sep s).
    destruct (split sep s); [contradiction|]. exact IH.
Qed.

(** The lines [split] returns hold no separator. *)
Lemma split_lines (s : str) : Forall (fun line => ~ In sep line) (split sep s).
Proof.
  induction s as [|c s IH]; simpl.
  - constructor; [|constructor]. intros [].
  - destruct (N.eqb_spec c sep) as [->|Hne].
    + constructor; [intros []|exact IH].
    + pose proof (split_not_nil sep s).
      destruct (split sep s) as [|field fields]; [contradiction|].
      inversion IH as [|? ? Hf Hfs]; subst. constructor; [|exact Hfs].
      intros [Hc|Hin]; [now apply Hne|now apply Hf].
Qed.
End Lines.

(** ** The UTF-8 codec: what is encoded decodes to itself *)

Lemma byte_of_N_to_N (n : N) : (n < 256)%N -> Byte.to_N (byte_of_N n) = n.
Proof.
  intros Hn. unfold byte_of_N.
  destruct (Byte.of_N n) as [b|] eqn:E; simpl.
  - now apply Byte.to_of_N.
  - apply Byte.of_N_None_iff in E. lia.
Qed.

Lemma utf8_encode_cp_bytes (c : N) (b : list N) :
  utf8_encode_cp c = Some b -> Forall (fun n => (n < 256)%N) b /\ b <> [].
Proof.
  unfold utf8_encode_cp, is_surrogate. revert b.
  base64_digits c.
  bool_cases; simpl in *; try discriminate;
    match goal with H : Some _ = Some _ |- _ => injection H as <- end;
    (split; [|discriminate]); repeat constructor; lia.
Qed.

Lemma utf8_decode_cp_encode (c : N) (b rest : list N) :
  utf8_encode_cp c = Some b -> utf8_decode_cp (b ++ rest) = Some (c, rest).
Proof.
  unfold utf8_encode_cp, is_surrogate. revert b.
  base64_digits c.
  bool_cases; simpl in *; try discriminate;
    match goal with H : Some _ = Some _ |- _ => injection H as <- end;
    simpl; unfold is_cont, is_surrogate; bool_cases; simpl;
    f_equal; f_equal; lia.
Qed.

Lemma utf8_encode_N_bytes (s : str) (bs : list N) :
  utf8_encode_N s = Some bs -> Forall (fun n => (n < 256)%N) bs.
Proof.
  revert bs. induction s as [|c s IH]; simpl; intros bs H.
  - injection H as <-. constructor.
  - destruct (utf8_encode_cp c) as [b|] eqn:Ec; [|discriminate].
    destruct (utf8_encode_N s) as [bs'|]; [|discriminate].
    injection H as <-. apply Forall_app. split.
    + now apply utf8_encode_cp_bytes in Ec.
    + now apply IH.
Qed.

Lemma utf8_decode_N_encode (s : str) (bs : list N) (fuel : nat) :
  utf8_encode_N s = Some bs -> length bs <= fuel ->
  utf8_decode_N fuel bs = Some s.
Proof.
  revert bs fuel. induction s as [|c s IH]; simpl; intros bs fuel H Hfuel.
  - injection H as <-. now destruct fuel.
  - destruct (utf8_encode_cp c) as [b|] eqn:Ec; [|discriminate].
    destruct (utf8_encode_N s) as [bs'|] eqn:Es; [|discriminate].
    injection H as <-.
    destruct (utf8_encode_cp_bytes _ _ Ec) as [_ Hb].
    destruct b as [|b0 b]; [contradiction|].
    rewrite length_app in Hfuel. simpl in Hfuel.
    destruct fuel as [|fuel]; [lia|].
    change (utf8_decode_N (S fuel) ((b0 :: b) ++ bs'))
      with (match utf8_decode_cp ((b0 :: b) ++ bs') with
            | None => None
            | Some (c, rest) => cons c <$> utf8_decode_N fuel rest
            end).
    rewrite (utf8_decode_cp_encode c (b0 :: b) bs' Ec).
    rewrite (IH bs' fuel eq_refl) by lia. reflexivity.
Qed.

Lemma map_to_N_byte_of_N (bs : list N) :
  Forall (fun n => (n < 256)%N) bs -> map Byte.to_N (map byte_of_N bs) = bs.
Proof.
  induction 1 as [|n bs Hn _ IH]; simpl; [reflexivity|].
  now rewrite byte_of_N_to_N, IH.
Qed.

(** [s.encode('utf-8').decode('utf-8') == s] wherever the encoding exists. *)
Lemma utf8_decode_encode (s : str) (b : bytes) :
  utf8_encode s = Some b -> utf8_decode b = Some s.
Proof.
  unfold utf8_encode, utf8_decode. intros H.
  destruct (utf8_encode_N s) as [bs|] eqn:Es; [|discriminate].
  simpl in H. injection H as <-.
  rewrite map_to_N_byte_of_N by now apply utf8_encode_N_bytes in Es.
  apply utf8_decode_N_encode; [assumption|].
  now rewrite length_map.
Qed.

(** ** The UTF-8 codec: what decodes is the encoding of its decoding *)

Lemma digits2 (q r : N) :
  (r < 64)%N -> ((64 * q + r) / 64 = q /\ (64 * q + r) mod 64 = r)%N.
Proof.
  intros Hr. split.
  - symmetry. apply (N.div_unique _ 64 q r); [exact Hr|reflexivity].
  - symmetry. apply (N.mod_unique _ 64 q r); [exact Hr|reflexivity].
Qed.

Lemma utf8_encode_cp_decode (bs rest : list N) (c : N) :
  utf8_decode_cp bs = Some (c, rest) ->
  exists enc, utf8_encode_cp c = Some enc /\ bs = enc ++ rest.
Proof.
  destruct bs as [|b0 r0]; [discriminate|]. unfold utf8_decode_cp.
  destruct (N.ltb_spec b0 0x80).
  { intros [= <- <-]. exists [b0]. unfold utf8_encode_cp.
    destruct (N.ltb_spec b0 0x80); [now split|lia]. }
  destruct (N.ltb_spec b0 0xC0); [discriminate|].
  destruct (N.ltb_spec b0 0xE0).
  { destruct r0 as [|b1 r1]; [discriminate|]. unfold is_cont.
    intros Hd. simpl in Hd. N_cases. simpl in Hd. injection Hd as <- <-.
    set (q := (b0 - 0xC0)%N) in *. set (r := (b1 - 0x80)%N) in *.
    assert (Hq : (q < 32)%N) by (unfold q; lia).
    assert (Hr : (r < 64)%N) by (unfold r; lia).
    assert (Hb0 : b0 = (0xC0 + q)%N) by (unfold q; lia).
    assert (Hb1 : b1 = (0x80 + r)%N) by (unfold r; lia).
    replace (q * 64 + r)%N with (64 * q + r)%N in * by lia.
    destruct (digits2 q r Hr) as [Hdiv Hmod].
    exists [b0; b1]. split; [|reflexivity].
    unfold utf8_encode_cp. rewrite Hdiv, Hmod.
    destruct (N.ltb_spec (64 * q + r) 0x80); [lia|].
    destruct (N.ltb_spec (64 * q + r) 0x800); [|lia].
    now rewrite Hb0, Hb1. }
  destruct (N.ltb_spec b0 0xF0).
  { destruct r0 as [|b1 [|b2 r2]]; try discriminate. unfold is_cont.
    intros Hd. simpl in Hd.
    destruct (is_surrogate _) eqn:Hsur in Hd;
      [rewrite !andb_false_r in Hd; discriminate|].
    N_cases. simpl in Hd. injection Hd as <- <-.
    set (d2 := (b0 - 0xE0)%N) in *. set (d1 := (b1 - 0x80)%N) in *.
    set (d0 := (b2 - 0x80)%N) in *.
    assert (L2 : (d2 < 16)%N) by (unfold d2; lia).
    assert (L1 : (d1 < 64)%N) by (unfold d1; lia).
    assert (L0 : (d0 < 64)%N) by (unfold d0; lia).
    assert (Hb0 : b0 = (0xE0 + d2)%N) by (unfold d2; lia).
    assert (Hb1 : b1 = (0x80 + d1)%N) by (unfold d1; lia).
    assert (Hb2 : b2 = (0x80 + d0)%N) by (unfold d0; lia).
    replace (d2 * 4096 + d1 * 64 + d0)%N
      with (64 * (64 * d2 + d1) + d0)%N in * by lia.
    destruct (digits2 (64 * d2 + d1) d0 L0) as [Hdiv0 Hmod0].
    destruct (digits2 d2 d1 L1) as [Hdiv1 Hmod1].
    exists [b0; b1; b2]. split; [|reflexivity].
    unfold utf8_encode_cp. rewrite Hsur.
    change 4096%N with (64 * 64)%N. rewrite <- N.Div0.div_div.
    rewrite Hdiv0, Hmod0, Hdiv1, Hmod1.
    destruct (N.ltb_spec (64 * (64 * d2 + d1) + d0) 0x80); [lia|].
    destruct (N.ltb_spec (64 * (64 * d2 + d1) + d0) 0x800); [lia|].
    destruct (N.ltb_spec (64 * (64 * d2 + d1) + d0) 0x10000); [|lia].
    now rewrite Hb0, Hb1, Hb2. }
  destruct (N.ltb_spec b0 0xF8); [|discriminate].
  destruct r0 as [|b1 [|b2 [|b3 r3]]]; try discriminate. unfold is_cont.
  intros Hd. simpl in Hd. N_cases. simpl in Hd. injection Hd as <- <-.
  set (d3 := (b0 - 0xF0)%N) in *. set (d2 := (b1 - 0x80)%N) in *.
  set (d1 := (b2 - 0x80)%N) in *. set (d0 := (b3 - 0x80)%N) in *.
  assert (L3 : (d3 < 8)%N) by (unfold d3; lia).
  assert (L2 : (d2 < 64)%N) by (unfold d2; lia).
  assert (L1 : (d1 < 64)%N) by (unfold d1; lia).
  assert (L0 : (d0 < 64)%N) by (unfold d0; lia).
  assert (Hb0 : b0 = (0xF0 + d3)%N) by (unfold d3; lia).
  assert (Hb1 : b1 = (0x80 + d2)%N) by (unfold d2; lia).
  assert (Hb2 : b2 = (0x80 + d1)%N) by (unfold d1; lia).
  assert (Hb3 : b3 = (0x80 + d0)%N) by (unfold d0; lia).
  replace (d3 * 262144 + d2 * 4096 + d1 * 64 + d0)%N
    with (64 * (64 * (64 * d3 + d2) + d1) + d0)%N in * by lia.
  destruct (digits2 (64 * (64 * d3 + d2) + d1) d0 L0) as [Hdiv0 Hmod0].
  destruct (digits2 (64 * d3 + d2) d1 L1) as [Hdiv1 Hmod1].
  destruct (digits2 d3 d2 L2) as [Hdiv2 Hmod2].
  exists [b0; b1; b2; b3]. split; [|reflexivity].
  unfold utf8_encode_cp.
  change 262144%N with (64 * (64 * 64))%N.
  change 4096%N with (64 * 64)%N.
  rewrite <- !N.Div0.div_div.
  rewrite Hdiv0, Hmod0, Hdiv1, Hmod1, Hdiv2, Hmod2.
  destruct (N.ltb_spec (64 * (64 * (64 * d3 + d2) + d1) + d0) 0x80); [lia|].
  destruct (N.ltb_spec (64 * (64 * (64 * d3 + d2) + d1) + d0) 0x800); [lia|].
  destruct (N.ltb_spec (64 * (64 * (64 * d3 + d2) + d1) + d0) 0x10000); [lia|].
  destruct (N.ltb_spec (64 * (64 * (64 * d3 + d2) + d1) + d0) 0x110000); [|lia].
  now rewrite Hb0, Hb1, Hb2, Hb3.
Qed.

Lemma utf8_encode_N_decode (fuel : nat) (bs : list N) (s : str) :
  utf8_decode_N fuel bs = Some s -> utf8_encode_N s = Some bs.
Proof.
  revert bs s. induction fuel as [|fuel IH]; intros bs s H.
  - destruct bs; [|discriminate]. now injection H as <-.
  - destruct bs as [|b0 r0]; [now injection H as <-|].
    cbn [utf8_decode_N] in H.
    destruct (utf8_decode_cp (b0 :: r0)) as [[c rest]|] eqn:Hcp;
      [|discriminate].
    destruct (utf8_decode_N fuel rest) as [s'|] eqn:Hrest; [|discriminate].
    simpl in H. injection H as <-.
    destruct (utf8_encode_cp_decode _ _ _ Hcp) as (enc & Henc & ->).
    simpl. now rewrite Henc, (IH rest s' Hrest).
Qed.

Lemma map_byte_of_N_to_N (b : bytes) : map byte_of_N (map Byte.to_N b) = b.
Proof.
  induction b as [|x b IH]; [reflexivity|]. simpl. rewrite IH.
  unfold byte_of_N. now rewrite Byte.of_to_N.
Qed.

(** [b.decode('utf-8').encode('utf-8') == b] wherever the decoding exists:
    only the UTF-8 form of a text decodes, and it decodes to that text. *)
Lemma utf8_encode_decode (b : bytes) (s : str) :
  utf8_decode b = Some s -> utf8_encode s = Some b.
Proof.
  unfold utf8_decode, utf8_encode. intros H.
  rewrite (utf8_encode_N_decode _ _ _ H). simpl.
  now rewrite map_byte_of_N_to_N.
Qed.

(** ** format.py *)

(** C10. [format_message] decodes [bytes] as UTF-8 and leaves text as it
    is, splits the text at the newlines, applies the per-line function to
    every line and joins the results with newlines.  Every text is the join
    of its lines, which hold no newline and are one more than the text has
    newlines, and the result is the join of the per-line function applied
    to each of these lines; said from the lines: lines without newlines,
    joined, are formatted line by line.  With the identity as per-line
    function every text comes back unchanged.  Bytes that are the UTF-8
    form of a text are handled as that text, bytes that decode are the
    UTF-8 form of what they decode to, and bytes that are not valid UTF-8
    raise [UnicodeDecodeError]. *)
Theorem format_message_adapter (fn : str -> str) (s : str) :
  (exists lines : list str,
     s = join [nl] lines
     /\ Forall (fun line => ~ In nl line) lines
     /\ length lines = S (count_occ N.eq_dec s nl)
     /\ Format.format_message (Format.Text s) fn
        = Format.Ok (join [nl] (map fn lines)))
  /\ (forall lines : list str,
        lines <> [] ->
        Forall (fun line => ~ In nl line) lines ->
        Format.format_message (Format.Text (join [nl] lines)) fn
        = Format.Ok (join [nl] (map fn lines)))
  /\ Format.format_message (Format.Text s) (fun line => line) = Format.Ok s
  /\ (forall b : bytes,
        utf8_encode s = Some b ->
        Format.format_message (Format.Bytes b) fn
          = Format.format_message (Format.Text s) fn
        /\ Format.format_message (Format.Bytes b) (fun line => line)
          = Format.Ok s)
  /\ (forall (b : bytes) (text : str),
        utf8_decode b = Some text ->
        utf8_encode text = Some b
        /\ Format.format_message (Format.Bytes b) fn
           = Format.format_message (Format.Text text) fn)
  /\ (forall b : bytes,
        utf8_decode b = None ->
        Format.format_message (Format.Bytes b) fn
        = Format.Err UnicodeDecodeError).
Proof.
  assert (Hid : Format.format_message (Format.Text s) (fun line => line)
                = Format.Ok s).
  { unfold Format.format_message. now rewrite map_id_str, join_split. }
  split; [|split; [|split; [exact Hid|split; [|split]]]].
  - exists (split nl s). split; [symmetry; apply join_split|].
    split; [apply split_lines|]. split; [apply split_length|reflexivity].
  - intros lines Hne Hlines. unfold Format.format_message.
    now rewrite split_join.
  - intros b Hb. unfold Format.format_message in *.
    rewrite (utf8_decode_encode s b Hb). split; [reflexivity|exact Hid].
  - intros b text Hb. split; [now apply utf8_encode_decode|].
    unfold Format.format_message. now rewrite Hb.
  - intros b Hb. unfold Format.format_message. now rewrite Hb.
Qed.

Lemma format_message_adapter_witness :
  Format.format_message
    (Format.Text (join [nl] [lit "a"; lit "b"])) (fun line => lit "> " ++ line)
  = Format.Ok (join [nl] [lit "> a"; lit "> b"])
  /\ Format.format_message
       (Format.Bytes [Byte.x61; Byte.x0a; Byte.xe2; Byte.x82; Byte.xac])
       (fun line => lit "> " ++ line)
     = Format.format_message
         (Format.Text (lit "a" ++ [nl; 0x20AC%N]))
         (fun line => lit "> " ++ line).
Proof.
  destruct (format_message_adapter (fun line => lit "> " ++ line)
              (lit "a" ++ [nl; 0x20AC%N]))
    as (_ & Hlines & _ & Hbytes & _ & _).
  split.
  - apply (Hlines [lit "a"; lit "b"]); [discriminate|].
    repeat constructor; vm_compute; intuition discriminate.
  - exact (proj1 (Hbytes [Byte.x61; Byte.x0a; Byte.xe2; Byte.x82; Byte.xac]
                    eq_refl)).
Defined.

(** The decorated formatter, given a [str], is [on_text]. *)
Lemma formatter_on_text (fn : str -> str) (s : str) :
  Format.formatter fn (Format.Text s) = Format.Ok (Format.on_text fn s).
Proof. reflexivity. Qed.

(** ** The buffer: single calls *)

Section Calls.
Variable _fn : sink.
Variable _formatter : option (str -> str).
Variable _max_size : Z.

Import LogBuffer.

Lemma is_empty_nil (s : LogBuffer.state) :
  is_empty s = true <-> _buffer s = [].
Proof. unfold is_empty. destruct (_buffer s); split; congruence. Qed.

Lemma is_empty_false (s : LogBuffer.state) :
  is_empty s = false <-> _buffer s <> [].
Proof. unfold is_empty. destruct (_buffer s); split; congruence. Qed.

(** C9. Flushing a buffer with nothing pending returns at once: the sink
    is not called and the state is the one before, in the base class and
    in the size-aware class. *)
Theorem flush_empty_is_noop
    (b : LogBuffer.state) (s : MaxSizeLogBuffer.state) :
  _buffer b = [] ->
  _buffer (MaxSizeLogBuffer.super s) = [] ->
  LogBuffer.flush _fn b = Returned b
  /\ MaxSizeLogBuffer.flush _fn s = Returned s.
Proof.
  intros Hb Hs. unfold LogBuffer.flush, MaxSizeLogBuffer.flush.
  apply is_empty_nil in Hb, Hs. now rewrite Hb, Hs.
Qed.

(** C3. On a closed buffer [__call__] raises [BufferClosedError] and
    changes nothing: neither what is pending nor, in the size-aware class,
    the byte count or the event. *)
Theorem call_on_closed_raises
    (message : str) (b : LogBuffer.state) (s : MaxSizeLogBuffer.state) :
  _open b = false ->
  _open (MaxSizeLogBuffer.super s) = false ->
  LogBuffer.__call__ _formatter message b = Raised BufferClosedError b
  /\ MaxSizeLogBuffer.__call__ _formatter _max_size message s
     = Raised BufferClosedError s.
Proof.
  intros Hb Hs.
  unfold LogBuffer.__call__, LogBuffer.call_locked,
    MaxSizeLogBuffer.__call__, MaxSizeLogBuffer.call_locked.
  now rewrite Hb, Hs.
Qed.

Lemma append_all_open (messages : list str) (s : LogBuffer.state) :
  _open s = true ->
  append_all _formatter messages s
  = Returned (set_buffer (_buffer s ++ map (format _formatter) messages) s).
Proof.
  revert s. induction messages as [|m rest IH]; intros s Ho; simpl.
  - rewrite app_nil_r. now destruct s.
  - unfold LogBuffer.__call__, call_locked. rewrite Ho. simpl.
    rewrite IH by assumption. simpl. now rewrite <- app_assoc.
Qed.

Lemma flush_nonempty (s : LogBuffer.state) :
  _buffer s <> [] ->
  let batch := join [nl] (_buffer s) in
  LogBuffer.flush _fn s
  = match _fn (fn_calls s) batch with
    | Some e => Raised e (record_call batch s)
    | None => Returned (set_buffer [] (record_call batch s))
    end.
Proof.
  intros Hne. unfold LogBuffer.flush.
  apply is_empty_false in Hne. now rewrite Hne.
Qed.

(** C1. Messages A1..An (n >= 1) appended to an open buffer with nothing
    pending are all stored, and the flush that follows calls the sink
    exactly once, with A1..An joined by newlines in the order of the calls
    (each as the configured formatter returned it); when that call returns,
    nothing is pending afterwards. *)
Theorem appends_then_flush (messages : list str) (s : LogBuffer.state) :
  messages <> [] ->
  _open s = true ->
  _buffer s = [] ->
  let batch := join [nl] (map (format _formatter) messages) in
  exists s1,
    append_all _formatter messages s = Returned s1
    /\ _buffer s1 = map (format _formatter) messages
    /\ fn_calls s1 = fn_calls s
    /\ fn_calls (state_of (LogBuffer.flush _fn s1)) = fn_calls s ++ [batch]
    /\ (_fn (fn_calls s) batch = None ->
        LogBuffer.flush _fn s1
        = Returned {| _buffer := []; _open := true;
                      fn_calls := fn_calls s ++ [batch] |}).
Proof.
  intros Hne Ho Hb batch.
  eexists. split; [now apply append_all_open|].
  simpl. rewrite Hb. simpl. split; [reflexivity|]. split; [reflexivity|].
  rewrite flush_nonempty; simpl.
  - fold batch. destruct (_fn (fn_calls s) batch); simpl.
    + split; [reflexivity|discriminate].
    + split; [reflexivity|]. intros _. unfold set_buffer. simpl.
      now rewrite Ho.
  - destruct messages; [contradiction|discriminate].
Qed.
End Calls.

Lemma flush_empty_is_noop_witness :
  LogBuffer.flush quiet LogBuffer.init = Returned LogBuffer.init
  /\ MaxSizeLogBuffer.flush quiet MaxSizeLogBuffer.init
     = Returned MaxSizeLogBuffer.init.
Proof.
  exact (flush_empty_is_noop quiet LogBuffer.init MaxSizeLogBuffer.init
           eq_refl eq_refl).
Defined.

Lemma call_on_closed_raises_witness :
  LogBuffer.__call__ None (lit "late") (LogBuffer.close LogBuffer.init)
  = Raised BufferClosedError (LogBuffer.close LogBuffer.init)
  /\ MaxSizeLogBuffer.__call__ None 120 (lit "late")
       (MaxSizeLogBuffer.close MaxSizeLogBuffer.init)
     = Raised BufferClosedError (MaxSizeLogBuffer.close MaxSizeLogBuffer.init).
Proof.
  exact (call_on_closed_raises None 120 (lit "late")
           (LogBuffer.close LogBuffer.init)
           (MaxSizeLogBuffer.close MaxSizeLogBuffer.init) eq_refl eq_refl).
Defined.

Lemma appends_then_flush_witness :
  exists s1,
    LogBuffer.append_all None [lit "a"; lit "b"] LogBuffer.init = Returned s1
    /\ LogBuffer._buffer s1 = [lit "a"; lit "b"]
    /\ LogBuffer.fn_calls s1 = []
    /\ LogBuffer.fn_calls (state_of (LogBuffer.flush quiet s1))
       = [lit "a" ++ [nl] ++ lit "b"]
    /\ (quiet [] (lit "a" ++ [nl] ++ lit "b") = None ->
        LogBuffer.flush quiet s1
        = Returned {| LogBuffer._buffer := []; LogBuffer._open := true;
                      LogBuffer.fn_calls := [lit "a" ++ [nl] ++ lit "b"] |}).
Proof.
  exact (appends_then_flush quiet None [lit "a"; lit "b"] LogBuffer.init
           ltac:(discriminate) eq_refl eq_refl).
Defined.

(** ** The buffer: a sink that raises *)

Section Failures.
Variable _fn : sink.

Import LogBuffer.

(** C8. When the sink raises during a flush, [flush] raises the same
    exception; apart from the record of the call the state is the one
    before, so everything is still pending (and the byte count and the
    event of the size-aware class are as they were), and the next flush
    calls the sink with the same batch and drains the buffer if the sink
    then returns. *)
Theorem sink_error_propagates
    (e : exn) (b : LogBuffer.state) (s : MaxSizeLogBuffer.state) :
  _buffer b <> [] ->
  _fn (fn_calls b) (join [nl] (_buffer b)) = Some e ->
  _buffer (MaxSizeLogBuffer.super s) <> [] ->
  _fn (fn_calls (MaxSizeLogBuffer.super s))
      (join [nl] (_buffer (MaxSizeLogBuffer.super s))) = Some e ->
  let batch := join [nl] (_buffer b) in
  let b' := record_call batch b in
  let batch_s := join [nl] (_buffer (MaxSizeLogBuffer.super s)) in
  let s' := MaxSizeLogBuffer.set_super
              (record_call batch_s (MaxSizeLogBuffer.super s)) s in
  (LogBuffer.flush _fn b = Raised e b'
   /\ _buffer b' = _buffer b
   /\ _open b' = _open b
   /\ (_fn (fn_calls b') batch = None ->
       LogBuffer.flush _fn b'
       = Returned {| _buffer := []; _open := _open b;
                     fn_calls := fn_calls b ++ [batch; batch] |}))
  /\ (MaxSizeLogBuffer.flush _fn s = Raised e s'
      /\ _buffer (MaxSizeLogBuffer.super s')
         = _buffer (MaxSizeLogBuffer.super s)
      /\ _open (MaxSizeLogBuffer.super s') = _open (MaxSizeLogBuffer.super s)
      /\ MaxSizeLogBuffer._size s' = MaxSizeLogBuffer._size s
      /\ MaxSizeLogBuffer.SizeExceeded s' = MaxSizeLogBuffer.SizeExceeded s
      /\ (_fn (fn_calls (MaxSizeLogBuffer.super s')) batch_s = None ->
          MaxSizeLogBuffer.flush _fn s'
          = Returned
              {| MaxSizeLogBuffer.super :=
                   {| _buffer := [];
                      _open := _open (MaxSizeLogBuffer.super s);
                      fn_calls := fn_calls (MaxSizeLogBuffer.super s)
                                  ++ [batch_s; batch_s] |};
                 MaxSizeLogBuffer._size := 0;
                 MaxSizeLogBuffer.SizeExceeded := false |})).
Proof.
  intros Hb Hfb Hs Hfs batch b' batch_s s'. split.
  - split; [|split; [reflexivity|split; [reflexivity|]]].
    + rewrite flush_nonempty by assumption. simpl. now rewrite Hfb.
    + intros Hok. rewrite flush_nonempty by assumption. simpl.
      fold batch. simpl in Hok. rewrite Hok.
      unfold set_buffer. simpl. now rewrite <- app_assoc.
  - split; [|repeat (split; [reflexivity|])].
    + unfold MaxSizeLogBuffer.flush, MaxSizeLogBuffer.flush_locked.
      apply is_empty_false in Hs. rewrite Hs. now rewrite Hfs.
    + intros Hok.
      unfold MaxSizeLogBuffer.flush, MaxSizeLogBuffer.flush_locked.
      apply is_empty_false in Hs.
      change (is_empty (MaxSizeLogBuffer.super s'))
        with (is_empty (MaxSizeLogBuffer.super s)).
      rewrite Hs. simpl. fold batch_s. simpl in Hok. rewrite Hok.
      unfold set_buffer. simpl. now rewrite <- app_assoc.
Qed.
End Failures.

Lemma sink_error_propagates_witness :
  LogBuffer.flush flaky
    {| LogBuffer._buffer := [lit "a"]; LogBuffer._open := true;
       LogBuffer.fn_calls := [] |}
  = Raised (SinkError 1)
      {| LogBuffer._buffer := [lit "a"]; LogBuffer._open := true;
         LogBuffer.fn_calls := [lit "a"] |}
  /\ MaxSizeLogBuffer.flush flaky
       {| MaxSizeLogBuffer.super :=
            {| LogBuffer._buffer := [lit "a"]; LogBuffer._open := true;
               LogBuffer.fn_calls := [] |};
          MaxSizeLogBuffer._size := 1;
          MaxSizeLogBuffer.SizeExceeded := false |}
     = Raised (SinkError 1)
         {| MaxSizeLogBuffer.super :=
              {| LogBuffer._buffer := [lit "a"]; LogBuffer._open := true;
                 LogBuffer.fn_calls := [lit "a"] |};
            MaxSizeLogBuffer._size := 1;
            MaxSizeLogBuffer.SizeExceeded := false |}.
Proof.
  pose proof (sink_error_propagates flaky (SinkError 1)
    {| LogBuffer._buffer := [lit "a"]; LogBuffer._open := true;
       LogBuffer.fn_calls := [] |}
    {| MaxSizeLogBuffer.super :=
         {| LogBuffer._buffer := [lit "a"]; LogBuffer._open := true;
            LogBuffer.fn_calls := [] |};
       MaxSizeLogBuffer._size := 1;
       MaxSizeLogBuffer.SizeExceeded := false |}
    ltac:(discriminate) eq_refl ltac:(discriminate) eq_refl) as H.
  exact (conj (proj1 (proj1 H)) (proj1 (proj2 H))).
Defined.

(** ** The size-aware buffer: the byte count and the event *)

Section SizeAware.
Variable _fn : sink.
Variable _formatter : option (str -> str).
Variable _max_size : Z.

Import LogBuffer MaxSizeLogBuffer.

Local Abbreviation exec := (MaxSizeLogBuffer.exec _fn _formatter _max_size).
Local Abbreviation run := (MaxSizeLogBuffer.run _fn _formatter _max_size).
Local Abbreviation flush := (MaxSizeLogBuffer.flush _fn).
Local Abbreviation __call__ := (MaxSizeLogBuffer.__call__ _formatter _max_size).

Lemma snoc_not_nil {A} (l : list A) (x : A) : l ++ [x] <> [].
Proof. destruct l; discriminate. Qed.

Lemma call_open (message : str) (s : state) :
  _open (super s) = true ->
  let m := format _formatter message in
  let s1 := set_super (set_buffer (_buffer (super s) ++ [m]) (super s)) s in
  __call__ message s
  = match utf8_encode m with
    | Some b =>
        Returned (call_signal _max_size
                    (set_size (_size s + Z.of_nat (length b)) s1))
    | None => Raised UnicodeEncodeError s1
    end.
Proof.
  intros Ho m s1. unfold MaxSizeLogBuffer.__call__, call_locked.
  rewrite Ho. simpl. fold m. now destruct (utf8_encode m).
Qed.

Lemma buffer_call_signal (s : state) :
  super (call_signal _max_size s) = super s.
Proof. unfold call_signal. now destruct (_size s >? _max_size)%Z. Qed.

Lemma size_call_signal (s : state) :
  _size (call_signal _max_size s) = _size s.
Proof. unfold call_signal. now destruct (_size s >? _max_size)%Z. Qed.

Lemma flush_drains (s : state) :
  _buffer (super s) <> [] ->
  let batch := join [nl] (_buffer (super s)) in
  flush s
  = match _fn (fn_calls (super s)) batch with
    | Some e => Raised e (set_super (record_call batch (super s)) s)
    | None =>
        Returned {| super := set_buffer [] (record_call batch (super s));
                    _size := 0;
                    SizeExceeded := false |}
    end.
Proof.
  intros Hne. unfold MaxSizeLogBuffer.flush.
  apply is_empty_false in Hne. now rewrite Hne.
Qed.

Lemma exec_settled (o : op) (s : state) :
  settled s -> settled (state_of (exec o s)).
Proof.
  intros Hs. destruct o as [message| |]; simpl.
  - destruct (_open (super s)) eqn:Ho.
    + rewrite call_open by assumption.
      destruct (utf8_encode (format _formatter message)); simpl;
        intros Hnil; [rewrite buffer_call_signal in Hnil|];
        simpl in Hnil; now apply snoc_not_nil in Hnil.
    + unfold MaxSizeLogBuffer.__call__, call_locked. now rewrite Ho.
  - destruct (_buffer (super s)) as [|x l] eqn:Hb.
    + unfold MaxSizeLogBuffer.flush, is_empty. now rewrite Hb.
    + rewrite flush_drains by (rewrite Hb; discriminate).
      destruct (_fn _ _); simpl.
      * intros Hnil. simpl in Hnil. congruence.
      * intros _. split; reflexivity.
  - exact Hs.
Qed.

Lemma run_snoc (ops : list op) (o : op) (s : state) :
  run (ops ++ [o]) s = state_of (exec o (run ops s)).
Proof. unfold MaxSizeLogBuffer.run. now rewrite fold_left_app. Qed.

Lemma run_settled (ops : list op) : settled (run ops init).
Proof.
  induction ops as [|o ops IH] using rev_ind.
  - intros _. split; reflexivity.
  - rewrite run_snoc. now apply exec_settled.
Qed.

(** C5. In every state the object can be in (after any sequence of calls
    on a fresh object), a flush that returns leaves the byte count at 0 and
    the event clear, whether it delivered a batch or found nothing pending.
    The event is cleared exactly by a flush that drains the buffer: a call
    after which the event has gone from set to clear is a flush that found
    messages pending, called the sink and returned with nothing pending,
    and every such flush leaves the event clear. *)
Theorem flush_resets_size_and_event (ops : list op) (s s' : state) :
  s = run ops init ->
  flush s = Returned s' ->
  (_size s' = 0%Z /\ SizeExceeded s' = false)
  /\ (forall (o : op) (t : state),
        SizeExceeded t = true ->
        SizeExceeded (state_of (exec o t)) = false ->
        o = Flush
        /\ _buffer (super t) <> []
        /\ exists t', exec o t = Returned t'
                      /\ _buffer (super t') = []
                      /\ fn_calls (super t')
                         = fn_calls (super t)
                           ++ [join [nl] (_buffer (super t))])
  /\ (forall t t' : state,
        _buffer (super t) <> [] ->
        flush t = Returned t' ->
        _buffer (super t') = [] /\ SizeExceeded t' = false).
Proof.
  intros -> Hflush. split; [|split].
  - pose proof (run_settled ops) as Hs.
    destruct (_buffer (super (run ops init))) as [|x l] eqn:Hb.
    + unfold MaxSizeLogBuffer.flush, is_empty in Hflush.
      rewrite Hb in Hflush. injection Hflush as <-. now apply Hs.
    + rewrite flush_drains in Hflush by (rewrite Hb; discriminate).
      destruct (_fn _ _); [discriminate|]. injection Hflush as <-.
      split; reflexivity.
  - intros o t Hset Hclear. destruct o as [message| |]; simpl in Hclear.
    + exfalso. unfold MaxSizeLogBuffer.__call__, call_locked in Hclear.
      destruct (negb (_open (super t))); simpl in Hclear; [congruence|].
      destruct (utf8_encode _); simpl in Hclear; [|congruence].
      unfold call_signal in Hclear.
      destruct (_ >? _)%Z; simpl in Hclear; congruence.
    + split; [reflexivity|].
      destruct (_buffer (super t)) as [|x l] eqn:Hb.
      * exfalso. unfold MaxSizeLogBuffer.flush, is_empty in Hclear.
        rewrite Hb in Hclear. simpl in Hclear. congruence.
      * split; [discriminate|]. simpl.
        rewrite flush_drains in * by (rewrite Hb; discriminate).
        rewrite Hb in *.
        destruct (_fn _ _); simpl in Hclear; [congruence|].
        eexists. split; [reflexivity|]. split; reflexivity.
    + exfalso. congruence.
  - intros t t' Hne Ht. rewrite flush_drains in Ht by assumption.
    destruct (_fn _ _); [discriminate|]. injection Ht as <-.
    split; reflexivity.
Qed.
End SizeAware.

Lemma flush_resets_size_and_event_witness :
  MaxSizeLogBuffer._size
    (state_of (MaxSizeLogBuffer.flush quiet
       (MaxSizeLogBuffer.run quiet None 3
          [LogBuffer.Call (lit "abcd"); LogBuffer.Flush; LogBuffer.Flush]
          MaxSizeLogBuffer.init))) = 0%Z.
Proof.
  exact (proj1 (proj1 (flush_resets_size_and_event quiet None 3
    [LogBuffer.Call (lit "abcd"); LogBuffer.Flush; LogBuffer.Flush]
    _ _ eq_refl eq_refl))).
Defined.

(** ** The size-aware buffer: what the byte count tracks *)

Section SizeTracking.
Variable _fn : sink.
Variable _formatter : option (str -> str).
Variable _max_size : Z.

Import LogBuffer MaxSizeLogBuffer.

Local Abbreviation exec := (MaxSizeLogBuffer.exec _fn _formatter _max_size).
Local Abbreviation run := (MaxSizeLogBuffer.run _fn _formatter _max_size).
Local Abbreviation encodable := (MaxSizeLogBuffer.encodable _formatter).

Lemma byte_size_snoc (pending : list str) (m : str) :
  byte_size (pending ++ [m])
  = match byte_size pending, utf8_encode m with
    | Some n, Some b => Some (n + Z.of_nat (length b))%Z
    | _, _ => None
    end.
Proof.
  induction pending as [|x l IH]; simpl.
  - destruct (utf8_encode m); [f_equal; lia|reflexivity].
  - rewrite IH. destruct (utf8_encode x); [|reflexivity].
    destruct (byte_size l); [|reflexivity].
    destruct (utf8_encode m); [f_equal; lia|reflexivity].
Qed.

(** As long as every appended message has a UTF-8 form, each call leaves
    [self._size] equal to the byte size of what is pending. *)
Lemma exec_size_tracks (o : op) (s : state) :
  encodable o -> size_tracks s -> size_tracks (state_of (exec o s)).
Proof.
  intros Ho [Hs Hpos]. destruct o as [message| |]; simpl.
  - destruct (_open (super s)) eqn:Hopen.
    + rewrite call_open by assumption. simpl in Ho.
      destruct (utf8_encode (format _formatter message)) as [b|] eqn:Eb;
        [|contradiction].
      simpl. unfold size_tracks.
      rewrite buffer_call_signal, size_call_signal. simpl.
      rewrite byte_size_snoc, Hs, Eb. split; [reflexivity|lia].
    + unfold MaxSizeLogBuffer.__call__, call_locked. rewrite Hopen.
      now split.
  - unfold MaxSizeLogBuffer.flush, flush_locked.
    destruct (is_empty (super s)); [now split|].
    destruct (_fn _ _); simpl; now split.
  - now split.
Qed.

Lemma run_size_tracks (ops : list op) :
  Forall encodable ops -> size_tracks (run ops init).
Proof.
  induction ops as [|o ops IH] using rev_ind; intros Hops.
  - now split.
  - apply Forall_app in Hops as [Hops Ho].
    rewrite run_snoc. apply exec_size_tracks.
    + now inversion Ho.
    + now apply IH.
Qed.
(** The size-aware class stores and delivers messages like the base class,
    as long as the messages have a UTF-8 form. *)
Lemma append_all_size_aware (messages : list str) (s : state) :
  _open (super s) = true ->
  Forall (fun m => encodable (Call m)) messages ->
  exists s1,
    MaxSizeLogBuffer.append_all _formatter _max_size messages s = Returned s1
    /\ _buffer (super s1)
       = _buffer (super s) ++ map (format _formatter) messages
    /\ _open (super s1) = true
    /\ fn_calls (super s1) = fn_calls (super s).
Proof.
  revert s. induction messages as [|m rest IH]; intros s Ho Henc; simpl.
  - exists s. now rewrite app_nil_r.
  - inversion Henc as [|? ? Hm Hrest]; subst. simpl in Hm.
    rewrite call_open by assumption.
    destruct (utf8_encode (format _formatter m)) as [b|]; [|contradiction].
    edestruct IH as (s1 & Happ & Hbuf & Hopen & Hcalls);
      [| exact Hrest | exists s1; split; [exact Happ|] ].
    + now rewrite buffer_call_signal.
    + rewrite Hbuf, Hopen, Hcalls, buffer_call_signal. simpl.
      now rewrite <- app_assoc.
Qed.

Lemma appends_then_flush_size_aware (messages : list str) (s : state) :
  messages <> [] ->
  _open (super s) = true ->
  _buffer (super s) = [] ->
  Forall (fun m => encodable (Call m)) messages ->
  let batch := join [nl] (map (format _formatter) messages) in
  exists s1,
    MaxSizeLogBuffer.append_all _formatter _max_size messages s = Returned s1
    /\ fn_calls (super (state_of (MaxSizeLogBuffer.flush _fn s1)))
       = fn_calls (super s) ++ [batch]
    /\ (_fn (fn_calls (super s)) batch = None ->
        MaxSizeLogBuffer.flush _fn s1
        = Returned {| super := {| _buffer := []; _open := true;
                                  fn_calls := fn_calls (super s) ++ [batch] |};
                      _size := 0;
                      SizeExceeded := false |}).
Proof.
  intros Hne Ho Hb Henc batch.
  destruct (append_all_size_aware messages s Ho Henc)
    as (s1 & Happ & Hbuf & Hopen & Hcalls).
  exists s1. split; [exact Happ|]. rewrite Hb in Hbuf. simpl in Hbuf.
  rewrite flush_drains
    by (rewrite Hbuf; destruct messages; [contradiction|discriminate]).
  rewrite Hbuf, Hcalls. fold batch.
  destruct (_fn (fn_calls (super s)) batch); simpl.
  - split; [now rewrite Hcalls|discriminate].
  - split; [now rewrite Hcalls|]. intros _.
    unfold set_buffer. simpl. now rewrite Hopen, Hcalls.
Qed.
End SizeTracking.

(** C4. A [str] may hold a lone surrogate, which has no UTF-8 form.
    Appended to a fresh size-aware buffer, such a message is stored, then
    [encode] raises [UnicodeEncodeError] before [self._size] is updated: the
    call leaves one message pending with the count still 0, so the count no
    longer is the byte size of what is pending; a following append of "a"
    does not repair it. *)
Theorem lone_surrogate_breaks_size_tracking :
  MaxSizeLogBuffer.__call__ None 120 [0xD800%N] MaxSizeLogBuffer.init
  = Raised UnicodeEncodeError
      {| MaxSizeLogBuffer.super :=
           {| LogBuffer._buffer := [[0xD800%N]]; LogBuffer._open := true;
              LogBuffer.fn_calls := [] |};
         MaxSizeLogBuffer._size := 0;
         MaxSizeLogBuffer.SizeExceeded := false |}
  /\ ~ MaxSizeLogBuffer.size_tracks
         (MaxSizeLogBuffer.run quiet None 120
            [LogBuffer.Call [0xD800%N]] MaxSizeLogBuffer.init)
  /\ ~ MaxSizeLogBuffer.size_tracks
         (MaxSizeLogBuffer.run quiet None 120
            [LogBuffer.Call [0xD800%N]; LogBuffer.Call (lit "a")]
            MaxSizeLogBuffer.init).
Proof.
  split; [reflexivity|].
  split; intros [H _]; vm_compute in H; discriminate.
Qed.

(** ** The size-aware driver *)

Section Driver.
Variable _fn : sink.
Variable _formatter : option (str -> str).
Variable _max_size : Z.

Import LogBuffer MaxSizeLogBuffer.

Local Abbreviation flush := (MaxSizeLogBuffer.flush _fn).
Local Abbreviation __call__ := (MaxSizeLogBuffer.__call__ _formatter _max_size).
Local Abbreviation resume := (MaxSizeLogBuffer.resume _fn _formatter _max_size).
Local Abbreviation step := (MaxSizeLogBuffer.step _fn _formatter _max_size).

Lemma join_ends_with (pending : list str) (line : str) :
  join [nl] (pending ++ [line]) = line
  \/ exists p, join [nl] (pending ++ [line]) = p ++ [nl] ++ line.
Proof.
  destruct pending as [|x l]; [now left|]. right.
  exists (join [nl] (x :: l)). now apply join_snoc.
Qed.

(** An append that returns with the count above [_max_size] has set the
    event. *)
Lemma call_sets_event (message : str) (s s' : state) :
  __call__ message s = Returned s' ->
  (_size s' > _max_size)%Z -> SizeExceeded s' = true.
Proof.
  unfold MaxSizeLogBuffer.__call__. intros H Hgt.
  destruct (call_locked _ _) as [s1|]; [|discriminate].
  injection H as <-. unfold call_signal in *.
  destruct (_size s1 >? _max_size)%Z eqn:E; [reflexivity|].
  simpl in Hgt. lia.
Qed.

(** An append that returns with the count at or below [_max_size] leaves
    the event as it was. *)
Lemma call_keeps_event (message : str) (s s' : state) :
  __call__ message s = Returned s' ->
  (_size s' <= _max_size)%Z -> SizeExceeded s' = SizeExceeded s.
Proof.
  unfold MaxSizeLogBuffer.__call__, call_locked. intros H Hle.
  destruct (negb (_open (super s))); [discriminate|].
  destruct (utf8_encode _); [|discriminate].
  injection H as <-. unfold call_signal in *.
  destruct (_ >? _)%Z eqn:E; [|reflexivity].
  simpl in Hle, E. exfalso. lia.
Qed.

(** The driver wakes up on an open buffer: the marker is appended behind
    what is pending, and all of it goes to the sink in one batch. *)
Lemma resume_open (w : reason) (s : state) (b : bytes) :
  _open (super s) = true ->
  utf8_encode (format _formatter (marker w)) = Some b ->
  let pending := _buffer (super s) ++ [format _formatter (marker w)] in
  let batch := join [nl] pending in
  resume w s
  = match _fn (fn_calls (super s)) batch with
    | Some e =>
        (Failed e,
         set_super (record_call batch (set_buffer pending (super s)))
           (call_signal _max_size
              (set_size (_size s + Z.of_nat (length b)) s)))
    | None =>
        (Waiting,
         {| super := {| _buffer := []; _open := true;
                        fn_calls := fn_calls (super s) ++ [batch] |};
            _size := 0;
            SizeExceeded := false |})
    end.
Proof.
  intros Ho Hb pending batch. unfold MaxSizeLogBuffer.resume.
  rewrite call_open by assumption. rewrite Hb.
  rewrite flush_drains
    by (rewrite buffer_call_signal; simpl; apply snoc_not_nil).
  rewrite buffer_call_signal. simpl. fold pending batch.
  destruct (_fn (fn_calls (super s)) batch).
  - f_equal. unfold call_signal, set_super, set_size. simpl.
    now destruct (_ >? _)%Z.
  - unfold loop_head. simpl. rewrite Ho.
    unfold set_buffer, record_call. simpl. now rewrite Ho.
Qed.

(** X14. A waiting driver of a buffer that is open when [wait_for]
    comes back appends "[flusher] maximum buffer size exceeded" through
    [__call__] if it was woken by the size signal and "[flusher] maximum
    buffer time exceeded" if it was woken by the timeout, and flushes.  The
    sink is called once, with what was pending followed by that marker as
    the formatter returns it, so the batch ends with the marker line; when
    the sink returns, the driver waits again on a drained buffer.  An
    append sets the event as soon as it leaves the byte count above
    [_max_size] and leaves the event alone otherwise. *)
Theorem open_driver_round_delivers_marker
    (w : reason) (s : state) (b : bytes) :
  _open (super s) = true ->
  utf8_encode
    (format _formatter
       (match w with
        | SizeSignal => lit "[flusher] maximum buffer size exceeded"
        | Timeout => lit "[flusher] maximum buffer time exceeded"
        end)) = Some b ->
  let text :=
    match w with
    | SizeSignal => lit "[flusher] maximum buffer size exceeded"
    | Timeout => lit "[flusher] maximum buffer time exceeded"
    end in
  let line := format _formatter text in
  let pending := _buffer (super s) ++ [line] in
  let batch := join [nl] pending in
  step (Ev (Wake w)) {| drv := Some Waiting; buf := s |}
    = Some (started (resume w s))
  /\ (exists s1, __call__ text s = Returned s1
                 /\ _buffer (super s1) = pending)
  /\ fn_calls (super (resume w s).2) = fn_calls (super s) ++ [batch]
  /\ (batch = line \/ exists p, batch = p ++ [nl] ++ line)
  /\ (_fn (fn_calls (super s)) batch = None ->
      resume w s
      = (Waiting,
         {| super := {| _buffer := []; _open := true;
                        fn_calls := fn_calls (super s) ++ [batch] |};
            _size := 0;
            SizeExceeded := false |}))
  /\ (forall (message : str) (t t' : state),
        __call__ message t = Returned t' ->
        ((_size t' > _max_size)%Z -> SizeExceeded t' = true)
        /\ ((_size t' <= _max_size)%Z -> SizeExceeded t' = SizeExceeded t)).
Proof.
  intros Ho Hb text line pending batch.
  assert (Hm : marker w = text) by now destruct w.
  change (utf8_encode (format _formatter text) = Some b) in Hb.
  clearbody text. subst text.
  pose proof (resume_open w s b Ho Hb) as Hr. simpl in Hr.
  fold line pending batch in Hr.
  split; [|split; [|split; [|split; [|split]]]].
  - reflexivity.
  - rewrite call_open by assumption. rewrite Hb. eexists.
    split; [reflexivity|]. now rewrite buffer_call_signal.
  - rewrite Hr. now destruct (_fn _ _).
  - apply join_ends_with.
  - intros Hok. now rewrite Hr, Hok.
  - intros message t t' Hcall. split.
    + now apply call_sets_event with (message := message) (s := t).
    + now apply call_keeps_event with (message := message).
Qed.

(** Whatever wakes the driver on a closed buffer, the marker is refused
    and [BufferClosedError] ends [flush_loop] with the state untouched: the
    [flush] after the loop is never reached. *)
Lemma resume_closed (w : reason) (s : state) :
  _open (super s) = false -> resume w s = (Failed BufferClosedError, s).
Proof.
  intros Hc. unfold MaxSizeLogBuffer.resume, MaxSizeLogBuffer.__call__,
    call_locked. now rewrite Hc.
Qed.

Lemma open_flush (s s' : state) :
  flush s = Returned s' -> _open (super s') = _open (super s).
Proof.
  unfold MaxSizeLogBuffer.flush, flush_locked.
  destruct (is_empty (super s)); [now intros [= <-]|].
  destruct (_fn _ _); [discriminate|]. now intros [= <-].
Qed.

Lemma open_call (message : str) (s s' : state) :
  __call__ message s = Returned s' ->
  _open (super s) = true /\ _open (super s') = true.
Proof.
  unfold MaxSizeLogBuffer.__call__, call_locked.
  destruct (_open (super s)) eqn:Ho; simpl; [|discriminate].
  destruct (utf8_encode _); [|discriminate].
  intros [= <-]. now rewrite buffer_call_signal.
Qed.

(** Once the driver waits, it never returns: every wake-up leaves it
    waiting again or ends it with an exception. *)
Lemma resume_never_stops (w : reason) (s : state) :
  (resume w s).1 <> Stopped.
Proof.
  unfold MaxSizeLogBuffer.resume.
  destruct (MaxSizeLogBuffer.__call__ _ _ _ s) as [s1|e s1] eqn:Hc;
    [|discriminate].
  destruct (MaxSizeLogBuffer.flush _ s1) as [s2|e s2] eqn:Hf;
    [|discriminate].
  apply open_call in Hc as [_ Ho1]. apply open_flush in Hf.
  unfold loop_head. rewrite Hf, Ho1. discriminate.
Qed.
End Driver.

Lemma open_driver_round_delivers_marker_witness :
  MaxSizeLogBuffer.resume quiet None 3 MaxSizeLogBuffer.SizeSignal
    (MaxSizeLogBuffer.run quiet None 3 [LogBuffer.Call (lit "abcd")]
       MaxSizeLogBuffer.init)
  = (MaxSizeLogBuffer.Waiting,
     {| MaxSizeLogBuffer.super :=
          {| LogBuffer._buffer := []; LogBuffer._open := true;
             LogBuffer.fn_calls :=
               [lit "abcd" ++ [nl]
                ++ lit "[flusher] maximum buffer size exceeded"] |};
        MaxSizeLogBuffer._size := 0;
        MaxSizeLogBuffer.SizeExceeded := false |}).
Proof.
  destruct (open_driver_round_delivers_marker quiet None 3
              MaxSizeLogBuffer.SizeSignal
              (MaxSizeLogBuffer.run quiet None 3
                 [LogBuffer.Call (lit "abcd")] MaxSizeLogBuffer.init)
              _ eq_refl eq_refl)
    as (_ & _ & _ & _ & H & _).
  exact (H eq_refl).
Defined.


(** ** The time-only driver *)

Section Timed.
Variable _fn : sink.
Variable _formatter : option (str -> str).

Import LogBuffer TimedLogBuffer.

Local Abbreviation loop_head := (TimedLogBuffer.loop_head _fn).
Local Abbreviation steps := (TimedLogBuffer.steps _fn _formatter).

(** On a closed buffer the driver makes exactly one more call of [flush]
    and ends with what that call does. *)
Lemma timed_loop_head_closed (s : state) :
  _open s = false ->
  loop_head s
  = match LogBuffer.flush _fn s with
    | Returned s' => (Stopped, s')
    | Raised e s' => (Failed e, s')
    end.
Proof. intros Hc. unfold TimedLogBuffer.loop_head. now rewrite Hc. Qed.

(** The buffer is closed while the driver sleeps: when the driver wakes
    up, what is pending goes to the sink in one batch and the driver
    returns. *)
Lemma timed_close_then_wake (s : state) :
  _buffer s <> [] ->
  _fn (fn_calls s) (join [nl] (_buffer s)) = None ->
  steps [Ev (Client Close); Ev Wake] {| drv := Some Sleeping; buf := s |}
  = Some {| drv := Some Stopped;
            buf := {| _buffer := []; _open := false;
                      fn_calls := fn_calls s ++ [join [nl] (_buffer s)] |} |}.
Proof.
  intros Hne Hok. simpl. rewrite timed_loop_head_closed by reflexivity.
  rewrite flush_nonempty by assumption. simpl. now rewrite Hok.
Qed.
End Timed.

(** ** Closing the buffer under a running driver *)

(** C2. Two messages are appended, the buffer is closed while the
    size-aware driver waits, and the driver wakes up, on the timeout or on
    the size signal: its call of [__call__] with the marker raises
    [BufferClosedError], which ends [flush_loop]; the [flush] after the loop
    is not reached, the sink has not been called and both messages are still
    pending, so that [__del__] raises [BufferNotFlushedError].  The
    time-only driver, given the same calls, returns after delivering both
    messages in one batch. *)
Theorem close_while_waiting_skips_final_flush :
  let a := lit "a" in
  let b := lit "b" in
  let left_behind (event : bool) :=
    {| MaxSizeLogBuffer.super :=
         {| LogBuffer._buffer := [a; b]; LogBuffer._open := false;
            LogBuffer.fn_calls := [] |};
       MaxSizeLogBuffer._size := 2;
       MaxSizeLogBuffer.SizeExceeded := event |} in
  MaxSizeLogBuffer.steps quiet None 120
    [MaxSizeLogBuffer.Start;
     MaxSizeLogBuffer.Ev (MaxSizeLogBuffer.Client (LogBuffer.Call a));
     MaxSizeLogBuffer.Ev (MaxSizeLogBuffer.Client (LogBuffer.Call b));
     MaxSizeLogBuffer.Ev (MaxSizeLogBuffer.Client LogBuffer.Close);
     MaxSizeLogBuffer.Ev (MaxSizeLogBuffer.Wake MaxSizeLogBuffer.Timeout)]
    MaxSizeLogBuffer.boot
  = Some {| MaxSizeLogBuffer.drv :=
              Some (MaxSizeLogBuffer.Failed BufferClosedError);
            MaxSizeLogBuffer.buf := left_behind false |}
  /\ MaxSizeLogBuffer.steps quiet None 1
       [MaxSizeLogBuffer.Start;
        MaxSizeLogBuffer.Ev (MaxSizeLogBuffer.Client (LogBuffer.Call a));
        MaxSizeLogBuffer.Ev (MaxSizeLogBuffer.Client (LogBuffer.Call b));
        MaxSizeLogBuffer.Ev (MaxSizeLogBuffer.Client LogBuffer.Close);
        MaxSizeLogBuffer.Ev
          (MaxSizeLogBuffer.Wake MaxSizeLogBuffer.SizeSignal)]
       MaxSizeLogBuffer.boot
     = Some {| MaxSizeLogBuffer.drv :=
                 Some (MaxSizeLogBuffer.Failed BufferClosedError);
               MaxSizeLogBuffer.buf := left_behind true |}
  /\ LogBuffer.__del__ (MaxSizeLogBuffer.super (left_behind false))
     = Some BufferNotFlushedError
  /\ TimedLogBuffer.steps quiet None
       [TimedLogBuffer.Start;
        TimedLogBuffer.Ev (TimedLogBuffer.Client (LogBuffer.Call a));
        TimedLogBuffer.Ev (TimedLogBuffer.Client (LogBuffer.Call b));
        TimedLogBuffer.Ev (TimedLogBuffer.Client LogBuffer.Close);
        TimedLogBuffer.Ev TimedLogBuffer.Wake]
       TimedLogBuffer.boot
     = Some {| TimedLogBuffer.drv := Some TimedLogBuffer.Stopped;
               TimedLogBuffer.buf :=
                 {| LogBuffer._buffer := []; LogBuffer._open := false;
                    LogBuffer.fn_calls := [a ++ [nl] ++ b] |} |}.
Proof. repeat (split; [reflexivity|]). reflexivity. Qed.

(** ** Tasks that contend for the lock *)

Section Exclusion.
Context {St : Type}.

Import Interleaving.







Lemma steps_app (l1 l2 : list (move St)) (c : config St) :
  steps (l1 ++ l2) c
  = match steps l1 c with Some c' => steps l2 c' | None => None end.
Proof.
  revert c. induction l1 as [|mv l1 IH]; intros c; simpl; [reflexivity|].
  destruct (step mv c); [apply IH|reflexivity].
Qed.

Lemma lookup_last (l : list (task St)) (t : task St) :
  (l ++ [t]) !! length l = Some t.
Proof. now apply list_lookup_middle. Qed.

Lemma insert_last (l : list (task St)) (t t' : task St) :
  <[length l := t']> (l ++ [t]) = l ++ [t'].
Proof.
  rewrite insert_app_r_alt by lia. now rewrite Nat.sub_diag.
Qed.

(** A task that runs from its call to its end with nobody in between does
    what [atomically] says, and leaves the lock free. *)
Lemma turn_atomically (m : method St) (c : config St) :
  lock c = None ->
  steps (turn (length (tasks c)) m (mem c)) c
  = Some {| mem := state_of (atomically m (mem c));
            lock := None;
            tasks := tasks c ++ [done_with m (mem c)] |}.
Proof.
  intros Hfree. destruct c as [s lk ts]. simpl in *. subst lk.
  unfold turn, done_with, atomically.
  destruct (enter m s) eqn:He; [destruct (locked m s) eqn:Hl|];
    cbn [repeat steps step tasks error_of state_of];
    repeat (rewrite lookup_last; unfold advance;
            cbn [at_pc code at_ mem lock tasks];
            rewrite ?He, ?Hl, ?insert_last;
            cbn [steps step tasks]);
    reflexivity.
Qed.

(** Under asyncio's schedule the object goes through the states that the
    calls, made one after the other, give. *)
Lemma serial_call_all (ms : list (method St)) (c : config St) :
  lock c = None ->
  exists c',
    steps (serial (length (tasks c)) ms (mem c)) c = Some c'
    /\ mem c' = call_all ms (mem c)
    /\ lock c' = None
    /\ length (tasks c') = length (tasks c) + length ms.
Proof.
  revert c. induction ms as [|m ms IH]; intros c Hfree.
  - exists c. simpl. repeat split; [assumption|lia].
  - cbn [serial]. rewrite steps_app, turn_atomically by assumption.
    destruct (IH {| mem := state_of (atomically m (mem c));
                    lock := None;
                    tasks := tasks c ++ [done_with m (mem c)] |} eq_refl)
      as (c' & Hrun & Hmem & Hlock & Hlen).
    cbn [mem tasks] in Hrun, Hmem, Hlen. rewrite length_app in Hrun, Hlen.
    cbn [length] in Hrun, Hlen. rewrite Nat.add_1_r in Hrun.
    exists c'. repeat split; [exact Hrun|exact Hmem|exact Hlock|].
    cbn [length]. lia.
Qed.
End Exclusion.

(** The methods of the classes are their cut forms run alone. *)
Lemma atomically_methods
    (fn : sink) (fmt : option (str -> str)) (max : Z) (message : str) :
  (forall s, atomically (LogBuffer.flush_method fn) s = LogBuffer.flush fn s)
  /\ (forall s, atomically (LogBuffer.call_method fmt message) s
                = LogBuffer.__call__ fmt message s)
  /\ (forall s, atomically LogBuffer.close_method s
                = Returned (LogBuffer.close s))
  /\ (forall s, atomically (MaxSizeLogBuffer.flush_method fn) s
                = MaxSizeLogBuffer.flush fn s)
  /\ (forall s, atomically (MaxSizeLogBuffer.call_method fmt max message) s
                = MaxSizeLogBuffer.__call__ fmt max message s)
  /\ (forall s, atomically MaxSizeLogBuffer.close_method s
                = Returned (MaxSizeLogBuffer.close s)).
Proof.
  repeat split; intros s; unfold atomically; simpl.
  - unfold LogBuffer.flush.
    destruct (LogBuffer.is_empty s); simpl; [reflexivity|].
    now destruct (LogBuffer.flush_locked fn s).
  - unfold LogBuffer.__call__. now destruct (LogBuffer.call_locked _ s).
  - unfold MaxSizeLogBuffer.flush.
    destruct (LogBuffer.is_empty _); simpl; [reflexivity|].
    now destruct (MaxSizeLogBuffer.flush_locked fn s).
Qed.

(** Under asyncio's schedule a sequence of calls on a size-aware buffer
    leaves the object in the state [run] computes. *)
Lemma serial_run
    (fn : sink) (fmt : option (str -> str)) (max : Z)
    (ops : list LogBuffer.op) (s : MaxSizeLogBuffer.state) :
  exists c,
    Interleaving.steps
      (Interleaving.serial 0
         (map (MaxSizeLogBuffer.method_of fn fmt max) ops) s)
      (Interleaving.idle s) = Some c
    /\ Interleaving.mem c = MaxSizeLogBuffer.run fn fmt max ops s
    /\ Interleaving.lock c = None.
Proof.
  destruct (serial_call_all (map (MaxSizeLogBuffer.method_of fn fmt max) ops)
              (Interleaving.idle s) eq_refl) as (c & Hrun & Hmem & Hlock & _).
  exists c. split; [exact Hrun|]. split; [|exact Hlock].
  rewrite Hmem. simpl. clear. revert s.
  induction ops as [|o ops IH]; intros s; [reflexivity|].
  simpl. rewrite <- IH. unfold Interleaving.call_all. simpl.
  do 2 f_equal.
  destruct (atomically_methods fn fmt max []) as (_ & _ & _ & Hf & _ & Hc).
  destruct o as [message| |]; simpl.
  - now destruct (atomically_methods fn fmt max message)
      as (_ & _ & _ & _ & -> & _).
  - now rewrite Hf.
  - now rewrite Hc.
Qed.

Section FlushInTurn.
Context {St : Type}.

Import Interleaving.

(** A run of a task is made of steps of the task. *)
Lemma run_task_steps (fuel i : nat) (c : config St) :
  exists n, steps (repeat (Step i) n) c = Some (run_task fuel i c).
Proof.
  revert c. induction fuel as [|fuel IH]; intros c; [now exists 0|].
  simpl. destruct (tasks c !! i) as [t|] eqn:Hi; [|now exists 0].
  destruct (advance i t c) as [c'|] eqn:Ha; [|now exists 0].
  destruct (IH c') as [n Hn]. exists (S n). simpl. now rewrite Hi, Ha.
Qed.

(** What asyncio's schedule does is made of steps. *)
Lemma performs_steps (l : list (act St)) (c : config St) :
  exists moves, steps moves c = Some (performs l c).
Proof.
  revert c. induction l as [|a l IH]; intros c; [now exists []|].
  simpl. destruct (IH (perform a c)) as [moves Hm].
  destruct a as [m|i]; simpl in *.
  - exists (Spawn m :: moves). exact Hm.
  - destruct (run_task_steps 4 i c) as [n Hn].
    exists (repeat (Step i) n ++ moves). now rewrite steps_app, Hn.
Qed.






Variable m : method St.
Variable pending calls : St -> list str.

(** What [flush_in_turn] needs from a method: it passes its guard exactly
    when something is pending, its block calls the sink once with all that
    is pending, whether the call returns or raises, and nothing follows the
    block. *)
Hypothesis enter_pending :
  forall s, enter m s = match pending s with [] => false | _ :: _ => true end.
Hypothesis locked_calls :
  forall s, calls (state_of (locked m s))
            = calls s ++ [join [nl] (pending s)].
Hypothesis leave_nothing : forall s, leave m s = s.

End FlushInTurn.



(** * More of the code *)

(** ** Nothing stored is lost, nothing is delivered twice *)

Section Accounting.
Variable _fn : sink.
Variable _formatter : option (str -> str).

Import LogBuffer Delivery.

Local Abbreviation run := (LogBuffer.run _fn _formatter).
Local Abbreviation exec := (LogBuffer.exec _fn _formatter).

Lemma run_cons (o : op) (ops : list op) (s : state) :
  run (o :: ops) s = run ops (state_of (exec o s)).
Proof. reflexivity. Qed.

(** From any state: what was pending and what the calls store is what the
    sink accepts, batch by batch, followed by what is pending at the end. *)
Lemma run_accounts (ops : list op) (s : state) :
  exists (calls : list str) (batches : list (list str)),
    fn_calls (run ops s) = fn_calls s ++ calls
    /\ accepted_calls _fn (fn_calls s) calls = map (join [nl]) batches
    /\ _buffer s ++ stored _formatter ops (_open s)
       = concat batches ++ _buffer (run ops s)
    /\ Forall (fun batch => batch <> []) batches.
Proof.
  revert s. induction ops as [|o ops IH]; intros s.
  - exists [], []. simpl. rewrite !app_nil_r. repeat split. constructor.
  - rewrite run_cons. destruct o as [message| |].
    + simpl. unfold LogBuffer.__call__, call_locked.
      destruct (_open s) eqn:Ho; simpl.
      * destruct (IH (set_buffer (_buffer s ++ [format _formatter message]) s))
          as (calls & batches & Hc & Ha & Hb & Hne).
        simpl in Hc, Ha, Hb. rewrite Ho in Hb.
        exists calls, batches. repeat split; try assumption.
        rewrite <- Hb. now rewrite <- app_assoc.
      * destruct (IH s) as (calls & batches & Hc & Ha & Hb & Hne).
        rewrite Ho in Hb. exists calls, batches. now repeat split.
    + simpl. unfold LogBuffer.flush.
      destruct (is_empty s) eqn:He; simpl.
      * destruct (IH s) as (calls & batches & Hc & Ha & Hb & Hne).
        exists calls, batches. now repeat split.
      * apply is_empty_false in He. unfold flush_locked.
        destruct (_fn (fn_calls s) (join [nl] (_buffer s))) eqn:Hfn; simpl.
        -- destruct (IH (record_call (join [nl] (_buffer s)) s))
             as (calls & batches & Hc & Ha & Hb & Hne).
           simpl in Hc, Ha, Hb.
           exists (join [nl] (_buffer s) :: calls), batches.
           repeat split; try assumption.
           ++ rewrite Hc. now rewrite <- app_assoc.
           ++ simpl. now rewrite Hfn.
        -- destruct (IH (set_buffer []
                           (record_call (join [nl] (_buffer s)) s)))
             as (calls & batches & Hc & Ha & Hb & Hne).
           simpl in Hc, Ha, Hb.
           exists (join [nl] (_buffer s) :: calls), (_buffer s :: batches).
           repeat split.
           ++ rewrite Hc. now rewrite <- app_assoc.
           ++ simpl. rewrite Hfn. now rewrite Ha.
           ++ simpl. rewrite <- app_assoc. now rewrite <- Hb.
           ++ now constructor.
    + simpl. destruct (IH (close s)) as (calls & batches & Hc & Ha & Hb & Hne).
      exists calls, batches. now repeat split.
Qed.

(** X1. After any sequence of calls on a fresh buffer, with any sink: the
    batches of the sink calls that returned are the joins of consecutive,
    non-empty groups of the stored messages, and these groups followed by
    what is still pending are exactly the stored messages in the order of
    their calls.  So every message stored is either pending or was handed
    to the sink in exactly one call that returned, and the order is kept. *)
Theorem stored_is_delivered_or_pending (ops : list op) :
  exists batches : list (list str),
    delivered _fn (fn_calls (run ops init)) = map (join [nl]) batches
    /\ concat batches ++ _buffer (run ops init) = stored _formatter ops true
    /\ Forall (fun batch => batch <> []) batches.
Proof.
  destruct (run_accounts ops init) as (calls & batches & Hc & Ha & Hb & Hne).
  simpl in Hc, Ha, Hb. exists batches. unfold delivered.
  rewrite Hc. now repeat split.
Qed.
End Accounting.

(** ** The size-aware class against the base class *)

Section Inherited.
Variable _fn : sink.
Variable _formatter : option (str -> str).
Variable _max_size : Z.

Import LogBuffer.

Lemma exec_super (o : op) (s : MaxSizeLogBuffer.state) :
  MaxSizeLogBuffer.super
    (state_of (MaxSizeLogBuffer.exec _fn _formatter _max_size o s))
  = state_of (LogBuffer.exec _fn _formatter o (MaxSizeLogBuffer.super s)).
Proof.
  destruct o as [message| |]; simpl.
  - unfold MaxSizeLogBuffer.__call__, MaxSizeLogBuffer.call_locked,
      LogBuffer.__call__, LogBuffer.call_locked.
    destruct (_open (MaxSizeLogBuffer.super s)); simpl; [|reflexivity].
    destruct (utf8_encode _); simpl; [|reflexivity].
    now rewrite buffer_call_signal.
  - unfold MaxSizeLogBuffer.flush, MaxSizeLogBuffer.flush_locked,
      LogBuffer.flush, LogBuffer.flush_locked.
    destruct (is_empty (MaxSizeLogBuffer.super s)); [reflexivity|].
    now destruct (_fn _ _).
  - reflexivity.
Qed.

(** X2. On what is pending, on [_open] and on the calls of the sink, the
    size-aware class does to its object exactly what the base class does on
    the same sequence of calls, whatever the byte count and the event are
    and also when [__call__] raises [UnicodeEncodeError]: the message is
    stored all the same. *)
Theorem size_aware_stores_like_base
    (ops : list op) (s : MaxSizeLogBuffer.state) :
  MaxSizeLogBuffer.super
    (MaxSizeLogBuffer.run _fn _formatter _max_size ops s)
  = LogBuffer.run _fn _formatter ops (MaxSizeLogBuffer.super s).
Proof.
  revert s. induction ops as [|o ops IH]; intros s; [reflexivity|].
  change (MaxSizeLogBuffer.run _fn _formatter _max_size (o :: ops) s)
    with (MaxSizeLogBuffer.run _fn _formatter _max_size ops
            (state_of (MaxSizeLogBuffer.exec _fn _formatter _max_size o s))).
  rewrite IH, exec_super. reflexivity.
Qed.
End Inherited.

(** ** Closing, flushing and destructing *)

Section Lifecycle.
Variable _fn : sink.
Variable _formatter : option (str -> str).

Import LogBuffer.

Local Abbreviation run := (LogBuffer.run _fn _formatter).
Local Abbreviation exec := (LogBuffer.exec _fn _formatter).

Lemma run_closed_empty (ops : list op) (s : state) :
  _open s = false -> _buffer s = [] -> run ops s = s.
Proof.
  intros Hc Hb. induction ops as [|o ops IH]; [reflexivity|].
  rewrite run_cons.
  assert (Hs : state_of (exec o s) = s); [|now rewrite Hs].
  destruct o as [message| |]; simpl.
  - unfold LogBuffer.__call__, call_locked. now rewrite Hc.
  - unfold LogBuffer.flush, is_empty. now rewrite Hb.
  - destruct s. simpl in *. now subst.
Qed.

(** X3. Once the buffer is closed, calls can only hand what is pending to
    the sink: the buffer stays closed, what is pending is either what was
    pending at the close or nothing, and every further call of the sink is
    made with the join of what was pending at the close. *)
Theorem closed_buffer_only_drains (ops : list op) (s : state) :
  _open s = false ->
  _open (run ops s) = false
  /\ (_buffer (run ops s) = _buffer s \/ _buffer (run ops s) = [])
  /\ exists k,
       fn_calls (run ops s)
       = fn_calls s ++ repeat (join [nl] (_buffer s)) k.
Proof.
  revert s. induction ops as [|o ops IH]; intros s Hc.
  - split; [assumption|]. split; [now left|]. exists 0. simpl.
    now rewrite app_nil_r.
  - rewrite run_cons. destruct o as [message| |]; simpl.
    + unfold LogBuffer.__call__, call_locked. rewrite Hc. simpl.
      now apply IH.
    + unfold LogBuffer.flush. destruct (is_empty s) eqn:He; simpl;
        [now apply IH|].
      unfold flush_locked.
      destruct (_fn (fn_calls s) (join [nl] (_buffer s))); simpl.
      * destruct (IH (record_call (join [nl] (_buffer s)) s) Hc)
          as (Ho & Hb & k & Hk).
        simpl in Hb, Hk. split; [assumption|]. split; [assumption|].
        exists (S k). rewrite Hk. simpl. now rewrite <- app_assoc.
      * rewrite run_closed_empty by (simpl; auto).
        simpl. split; [assumption|]. split; [now right|].
        exists 1. reflexivity.
    + assert (Hs : close s = s) by (destruct s; simpl in *; now subst).
      rewrite Hs. now apply IH.
Qed.

(** X4. A flush that returned has left nothing to do: the next flush
    returns at once with the same state, without calling the sink, and
    [__del__] does not raise.  The same holds in the size-aware class. *)
Theorem flush_leaves_nothing_to_flush
    (b b' : state) (s s' : MaxSizeLogBuffer.state) :
  LogBuffer.flush _fn b = Returned b' ->
  MaxSizeLogBuffer.flush _fn s = Returned s' ->
  (LogBuffer.flush _fn b' = Returned b' /\ __del__ b' = None)
  /\ (MaxSizeLogBuffer.flush _fn s' = Returned s'
      /\ __del__ (MaxSizeLogBuffer.super s') = None).
Proof.
  intros Hb Hs.
  assert (Eb : is_empty b' = true).
  { unfold LogBuffer.flush, flush_locked in Hb.
    destruct (is_empty b) eqn:He; [now injection Hb as <-|].
    destruct (_fn _ _); [discriminate|]. now injection Hb as <-. }
  assert (Es : is_empty (MaxSizeLogBuffer.super s') = true).
  { unfold MaxSizeLogBuffer.flush, MaxSizeLogBuffer.flush_locked in Hs.
    destruct (is_empty (MaxSizeLogBuffer.super s)) eqn:He;
      [now injection Hs as <-|].
    destruct (_fn _ _); [discriminate|]. now injection Hs as <-. }
  unfold LogBuffer.flush, MaxSizeLogBuffer.flush, __del__.
  now rewrite Eb, Es.
Qed.

(** X5. [close] does not flush and loses nothing: flushing a buffer that
    has just been closed calls the sink as flushing it before the close
    would have, and leaves the state that closing after that flush would
    leave; closing twice is closing once.  The same holds in the
    size-aware class. *)
Theorem close_commutes_with_flush
    (b : state) (s : MaxSizeLogBuffer.state) :
  LogBuffer.flush _fn (close b)
  = match LogBuffer.flush _fn b with
    | Returned b' => Returned (close b')
    | Raised e b' => Raised e (close b')
    end
  /\ close (close b) = close b
  /\ MaxSizeLogBuffer.flush _fn (MaxSizeLogBuffer.close s)
     = match MaxSizeLogBuffer.flush _fn s with
       | Returned s' => Returned (MaxSizeLogBuffer.close s')
       | Raised e s' => Raised e (MaxSizeLogBuffer.close s')
       end
  /\ MaxSizeLogBuffer.close (MaxSizeLogBuffer.close s)
     = MaxSizeLogBuffer.close s.
Proof.
  repeat split.
  - unfold LogBuffer.flush, flush_locked, is_empty. simpl.
    destruct (_buffer b); [reflexivity|]. now destruct (_fn _ _).
  - unfold MaxSizeLogBuffer.flush, MaxSizeLogBuffer.flush_locked, is_empty.
    simpl. destruct (_buffer (MaxSizeLogBuffer.super s)); [reflexivity|].
    now destruct (_fn _ _).
Qed.
End Lifecycle.

Lemma closed_buffer_only_drains_witness :
  LogBuffer._open
    (LogBuffer.run flaky None
       [LogBuffer.Call (lit "late"); LogBuffer.Flush; LogBuffer.Flush]
       {| LogBuffer._buffer := [lit "a"]; LogBuffer._open := false;
          LogBuffer.fn_calls := [] |}) = false.
Proof.
  exact (proj1 (closed_buffer_only_drains flaky None
    [LogBuffer.Call (lit "late"); LogBuffer.Flush; LogBuffer.Flush]
    {| LogBuffer._buffer := [lit "a"]; LogBuffer._open := false;
       LogBuffer.fn_calls := [] |} eq_refl)).
Defined.

Lemma flush_leaves_nothing_to_flush_witness :
  LogBuffer.__del__
    {| LogBuffer._buffer := []; LogBuffer._open := true;
       LogBuffer.fn_calls := [lit "a"] |} = None.
Proof.
  exact (proj2 (proj1 (flush_leaves_nothing_to_flush quiet
    {| LogBuffer._buffer := [lit "a"]; LogBuffer._open := true;
       LogBuffer.fn_calls := [] |} _
    MaxSizeLogBuffer.init _ eq_refl eq_refl))).
Defined.

(** ** The time-only driver over whole runs *)

Section TimedRuns.
Variable _fn : sink.
Variable _formatter : option (str -> str).

Import LogBuffer TimedLogBuffer Delivery.

Local Abbreviation steps := (TimedLogBuffer.steps _fn _formatter).
Local Abbreviation step := (TimedLogBuffer.step _fn _formatter).
Local Abbreviation loop_head := (TimedLogBuffer.loop_head _fn).
Local Abbreviation run := (LogBuffer.run _fn _formatter).

Lemma loop_head_flush (s : state) :
  (loop_head s).2 = state_of (LogBuffer.flush _fn s).
Proof.
  unfold TimedLogBuffer.loop_head.
  destruct (_open s); now destruct (LogBuffer.flush _fn s).
Qed.

Lemma flush_returned_empty (s s' : state) :
  LogBuffer.flush _fn s = Returned s' ->
  _buffer s' = [] /\ _open s' = _open s.
Proof.
  unfold LogBuffer.flush, flush_locked. destruct (is_empty s) eqn:He.
  - intros [= <-]. now apply is_empty_nil in He.
  - destruct (_fn _ _); [discriminate|]. now intros [= <-].
Qed.

Lemma loop_head_stopped (s : state) :
  (loop_head s).1 = Stopped ->
  _open (loop_head s).2 = false /\ _buffer (loop_head s).2 = [].
Proof.
  unfold TimedLogBuffer.loop_head.
  destruct (_open s) eqn:Ho;
    destruct (LogBuffer.flush _fn s) as [s'|e s'] eqn:Hf; simpl;
    try discriminate.
  intros _. apply flush_returned_empty in Hf as [Hb Hopen]. split; congruence.
Qed.

(** The buffer of a run is the buffer after the calls of the run, the
    driver's flushes among them. *)
Lemma steps_run (acts : list action) (sys sys' : system) :
  steps acts sys = Some sys' ->
  buf sys' = run (map timed_op_of acts) (buf sys).
Proof.
  revert sys. induction acts as [|a acts IH]; intros sys H; simpl in H.
  - now injection H as <-.
  - destruct (step a sys) as [sys1|] eqn:Hs; [|discriminate].
    rewrite (IH _ H). simpl map. rewrite run_cons. f_equal.
    destruct a as [|[o|]]; simpl in Hs.
    + destruct (drv sys); [discriminate|]. injection Hs as <-.
      simpl. apply loop_head_flush.
    + now injection Hs as <-.
    + destruct (drv sys) as [[| |]|]; try discriminate.
      injection Hs as <-. simpl. apply loop_head_flush.
Qed.

Lemma steps_stopped (acts : list action) (sys sys' : system) :
  (drv sys = Some Stopped ->
   _open (buf sys) = false /\ _buffer (buf sys) = []) ->
  steps acts sys = Some sys' ->
  drv sys' = Some Stopped ->
  _open (buf sys') = false /\ _buffer (buf sys') = [].
Proof.
  revert sys. induction acts as [|a acts IH]; intros sys Hinv H; simpl in H.
  - now injection H as <-.
  - destruct (step a sys) as [sys1|] eqn:Hs; [|discriminate].
    apply (IH sys1); [|exact H]. clear IH H.
    destruct a as [|[o|]]; simpl in Hs.
    + destruct (drv sys); [discriminate|]. injection Hs as <-.
      simpl. intros [= Hd]. now apply loop_head_stopped.
    + injection Hs as <-. simpl. intros Hd.
      destruct (Hinv Hd) as [Ho Hb].
      pose proof (run_closed_empty _fn _formatter [o] (buf sys) Ho Hb) as Hr.
      unfold LogBuffer.run in Hr. simpl in Hr. now rewrite Hr.
    + destruct (drv sys) as [[| |]|]; try discriminate.
      injection Hs as <-. simpl. intros [= Hd]. now apply loop_head_stopped.
Qed.

(** X6. When the time-only [flush_loop] has returned, after whatever
    calls other tasks made and with whatever sink, the buffer is closed,
    nothing is pending, [__del__] does not raise, and every message stored
    during the run has been handed to the sink in exactly one call that
    returned, in the order of the appends. *)
Theorem timed_driver_returns_drained (acts : list action) (sys : system) :
  steps acts boot = Some sys ->
  drv sys = Some Stopped ->
  _open (buf sys) = false
  /\ _buffer (buf sys) = []
  /\ __del__ (buf sys) = None
  /\ exists batches : list (list str),
       delivered _fn (fn_calls (buf sys)) = map (join [nl]) batches
       /\ concat batches = stored _formatter (map timed_op_of acts) true.
Proof.
  intros Hrun Hd.
  destruct (steps_stopped acts boot sys ltac:(discriminate) Hrun Hd)
    as [Ho Hb].
  split; [exact Ho|]. split; [exact Hb|]. split.
  - unfold __del__, is_empty. now rewrite Hb.
  - pose proof (steps_run acts boot sys Hrun) as Hbuf. simpl in Hbuf.
    destruct (run_accounts _fn _formatter (map timed_op_of acts) init)
      as (calls & batches & Hc & Ha & Hs & _).
    rewrite <- Hbuf in Hc, Hs. simpl in Hc, Ha, Hs.
    rewrite Hb, app_nil_r in Hs.
    exists batches. unfold delivered. rewrite Hc. now split.
Qed.

Hypothesis sink_returns : forall before batch, _fn before batch = None.

Lemma loop_head_sound (s : state) :
  (loop_head s).1 = (if _open s then Sleeping else Stopped)
  /\ _buffer (loop_head s).2 = []
  /\ _open (loop_head s).2 = _open s.
Proof.
  unfold TimedLogBuffer.loop_head, LogBuffer.flush, flush_locked.
  destruct (_open s) eqn:Ho; destruct (is_empty s) eqn:He; simpl;
    rewrite ?sink_returns; simpl; repeat split;
    try assumption; now apply is_empty_nil in He.
Qed.

Lemma steps_sound (acts : list action) (sys sys' : system) :
  (drv sys = Some Sleeping \/ drv sys = Some Stopped) ->
  steps acts sys = Some sys' ->
  drv sys' = Some Sleeping \/ drv sys' = Some Stopped.
Proof.
  revert sys. induction acts as [|a acts IH]; intros sys Hinv H; simpl in H.
  - now injection H as <-.
  - destruct (step a sys) as [sys1|] eqn:Hs; [|discriminate].
    apply (IH sys1); [|exact H]. clear IH H.
    destruct a as [|[o|]]; simpl in Hs.
    + destruct (drv sys); [discriminate|]. destruct Hinv; discriminate.
    + now injection Hs as <-.
    + destruct (drv sys) as [[| |]|]; try discriminate.
      injection Hs as <-. simpl.
      destruct (loop_head_sound (buf sys)) as [-> _].
      destruct (_open (buf sys)); auto.
Qed.

(** X7. With a sink that never raises, the time-only driver started on a
    fresh buffer never ends with an exception, whatever the other tasks
    do: it sleeps or has returned.  While it sleeps, closing the buffer
    makes its next wake-up the last one: it returns with nothing
    pending. *)
Theorem timed_driver_stops_after_close (acts : list action) (sys : system) :
  steps (Start :: acts) boot = Some sys ->
  (drv sys = Some Sleeping \/ drv sys = Some Stopped)
  /\ (drv sys = Some Sleeping ->
      exists sys',
        steps [Ev (Client Close); Ev Wake] sys = Some sys'
        /\ drv sys' = Some Stopped
        /\ _buffer (buf sys') = []).
Proof.
  intros Hrun.
  change (steps (Start :: acts) boot)
    with (steps acts (started (loop_head init))) in Hrun.
  split.
  - eapply steps_sound; [|exact Hrun]. left. unfold started. cbn [drv].
    now destruct (loop_head_sound init) as [-> _].
  - intros Hd. cbn [TimedLogBuffer.steps TimedLogBuffer.step drv buf].
    rewrite Hd. eexists. split; [reflexivity|].
    destruct (loop_head_sound
                (state_of (LogBuffer.exec _fn _formatter Close (buf sys))))
      as (H1 & H2 & _).
    unfold started. cbn [drv buf]. now rewrite H1, H2.
Qed.
End TimedRuns.

Lemma timed_driver_returns_drained_witness :
  LogBuffer._buffer
    (TimedLogBuffer.buf
       {| TimedLogBuffer.drv := Some TimedLogBuffer.Stopped;
          TimedLogBuffer.buf :=
            {| LogBuffer._buffer := []; LogBuffer._open := false;
               LogBuffer.fn_calls := [lit "a"] |} |}) = [].
Proof.
  exact (proj1 (proj2 (timed_driver_returns_drained quiet None
    [TimedLogBuffer.Start;
     TimedLogBuffer.Ev (TimedLogBuffer.Client (LogBuffer.Call (lit "a")));
     TimedLogBuffer.Ev (TimedLogBuffer.Client LogBuffer.Close);
     TimedLogBuffer.Ev TimedLogBuffer.Wake]
    _ eq_refl eq_refl))).
Defined.

Lemma timed_driver_stops_after_close_witness :
  TimedLogBuffer.drv
    {| TimedLogBuffer.drv := Some TimedLogBuffer.Sleeping;
       TimedLogBuffer.buf :=
         {| LogBuffer._buffer := [lit "a"]; LogBuffer._open := true;
            LogBuffer.fn_calls := [] |} |} = Some TimedLogBuffer.Sleeping
  \/ TimedLogBuffer.drv
       {| TimedLogBuffer.drv := Some TimedLogBuffer.Sleeping;
          TimedLogBuffer.buf :=
            {| LogBuffer._buffer := [lit "a"]; LogBuffer._open := true;
               LogBuffer.fn_calls := [] |} |} = Some TimedLogBuffer.Stopped.
Proof.
  exact (proj1 (timed_driver_stops_after_close quiet None (fun _ _ => eq_refl)
    [TimedLogBuffer.Ev (TimedLogBuffer.Client (LogBuffer.Call (lit "a")))]
    _ eq_refl)).
Defined.

(** ** The size-aware driver over whole runs *)

Section SizeAwareRuns.
Variable _fn : sink.
Variable _formatter : option (str -> str).
Variable _max_size : Z.

Import LogBuffer MaxSizeLogBuffer Delivery.

Local Abbreviation steps := (MaxSizeLogBuffer.steps _fn _formatter _max_size).
Local Abbreviation step := (MaxSizeLogBuffer.step _fn _formatter _max_size).
Local Abbreviation resume := (MaxSizeLogBuffer.resume _fn _formatter _max_size).
Local Abbreviation exec := (MaxSizeLogBuffer.exec _fn _formatter _max_size).
Local Abbreviation run := (MaxSizeLogBuffer.run _fn _formatter _max_size).
Local Abbreviation encodable := (MaxSizeLogBuffer.encodable _formatter).

Lemma steps_never_stopped (acts : list action) (sys sys' : system) :
  (drv sys = Some Waiting \/ exists e, drv sys = Some (Failed e)) ->
  steps acts sys = Some sys' ->
  drv sys' = Some Waiting \/ exists e, drv sys' = Some (Failed e).
Proof.
  revert sys. induction acts as [|a acts IH]; intros sys Hinv H; simpl in H.
  - now injection H as <-.
  - destruct (step a sys) as [sys1|] eqn:Hs; [|discriminate].
    apply (IH sys1); [|exact H]. clear IH H.
    assert (Hres : forall w,
      drv (started (resume w (buf sys))) = Some Waiting
      \/ exists e, drv (started (resume w (buf sys))) = Some (Failed e)).
    { intros w. unfold started. cbn [drv].
      pose proof (resume_never_stops _fn _formatter _max_size w (buf sys)).
      destruct (resume w (buf sys)).1; [now left|contradiction|eauto]. }
    destruct a as [|[o|w]]; simpl in Hs.
    + destruct (drv sys); [discriminate|].
      destruct Hinv as [|[? ?]]; discriminate.
    + now injection Hs as <-.
    + destruct (drv sys) as [[| |]|]; try discriminate.
      injection Hs as <-. apply Hres.
Qed.

(** X8. [flush_loop] of the size-aware class, started on an open buffer,
    never returns: whatever other tasks do and whatever wakes the driver,
    it is waiting again or has ended with an exception, so the [flush]
    after its loop is never the way out. *)
Theorem size_aware_driver_never_returns
    (s : state) (acts : list action) (sys : system) :
  _open (super s) = true ->
  steps (Start :: acts) {| drv := None; buf := s |} = Some sys ->
  drv sys = Some Waiting \/ exists e, drv sys = Some (Failed e).
Proof.
  intros Ho Hrun.
  change (steps (Start :: acts) {| drv := None; buf := s |})
    with (steps acts (started (loop_head _fn s))) in Hrun.
  eapply steps_never_stopped; [|exact Hrun].
  left. unfold started, loop_head. now rewrite Ho.
Qed.

Lemma flush_size_tracks (s : state) :
  size_tracks s -> size_tracks (state_of (MaxSizeLogBuffer.flush _fn s)).
Proof.
  intros Hs.
  exact (exec_size_tracks _fn _formatter _max_size Flush s I Hs).
Qed.

Lemma loop_head_size_tracks (s : state) :
  size_tracks s -> size_tracks (loop_head _fn s).2.
Proof.
  intros Hs. unfold loop_head. destruct (_open (super s)); [exact Hs|].
  pose proof (flush_size_tracks s Hs) as Hf.
  now destruct (MaxSizeLogBuffer.flush _fn s).
Qed.

Lemma resume_size_tracks (w : reason) (s : state) :
  encodable (Call (marker w)) ->
  size_tracks s -> size_tracks (resume w s).2.
Proof.
  intros Hm Hs. unfold MaxSizeLogBuffer.resume.
  pose proof (exec_size_tracks _fn _formatter _max_size
                (Call (marker w)) s Hm Hs) as Hc.
  simpl in Hc.
  destruct (MaxSizeLogBuffer.__call__ _ _ _ s) as [s1|e s1]; [|exact Hc].
  simpl in Hc. pose proof (flush_size_tracks s1 Hc) as Hf.
  destruct (MaxSizeLogBuffer.flush _fn s1) as [s2|e s2]; [|exact Hf].
  simpl in Hf. now apply loop_head_size_tracks.
Qed.

Lemma steps_size_tracks (acts : list action) (sys sys' : system) :
  (forall w, encodable (Call (marker w))) ->
  Forall (encodable_action _formatter) acts ->
  size_tracks (buf sys) ->
  steps acts sys = Some sys' ->
  size_tracks (buf sys').
Proof.
  intros Hm. revert sys.
  induction acts as [|a acts IH]; intros sys Hacts Hs H; simpl in H.
  - now injection H as <-.
  - destruct (step a sys) as [sys1|] eqn:Hstep; [|discriminate].
    inversion Hacts as [|? ? Ha Hrest]; subst.
    apply (IH sys1 Hrest); [|exact H]. clear IH H.
    destruct a as [|[o|w]]; simpl in Hstep.
    + destruct (drv sys); [discriminate|]. injection Hstep as <-.
      now apply loop_head_size_tracks.
    + injection Hstep as <-. simpl. now apply exec_size_tracks.
    + destruct (drv sys) as [[| |]|]; try discriminate.
      injection Hstep as <-. now apply resume_size_tracks.
Qed.

(** X9. As long as every message appended has a UTF-8 form once formatted,
    the two markers of the driver included, [self._size] is not negative
    and is the sum of the UTF-8 lengths of the pending messages, after
    every run of the driver and of the calls of other tasks. *)
Theorem size_tracks_encodable_messages (acts : list action) (sys : system) :
  (forall w, encodable (Call (marker w))) ->
  Forall (encodable_action _formatter) acts ->
  steps acts boot = Some sys ->
  byte_size (_buffer (super (buf sys))) = Some (_size (buf sys))
  /\ (0 <= _size (buf sys))%Z.
Proof.
  intros Hm Hacts Hrun.
  apply (steps_size_tracks acts boot sys Hm Hacts); [|exact Hrun].
  now split.
Qed.

Lemma loop_head_exec (s : state) :
  (loop_head _fn s).2 = s \/ (loop_head _fn s).2 = state_of (exec Flush s).
Proof.
  unfold loop_head. destruct (_open (super s)); [now left|right].
  simpl. now destruct (MaxSizeLogBuffer.flush _fn s).
Qed.

(** What every call keeps, every run of the driver keeps. *)
Lemma steps_invariant (P : state -> Prop)
    (acts : list action) (sys sys' : system) :
  (forall o s, P s -> P (state_of (exec o s))) ->
  P (buf sys) ->
  steps acts sys = Some sys' ->
  P (buf sys').
Proof.
  intros Hexec. revert sys.
  assert (Hloop : forall s, P s -> P (loop_head _fn s).2).
  { intros s Hs. destruct (loop_head_exec s) as [->| ->]; auto. }
  assert (Hres : forall w s, P s -> P (resume w s).2).
  { intros w s Hs. unfold MaxSizeLogBuffer.resume.
    pose proof (Hexec (Call (marker w)) s Hs) as Hc. simpl in Hc.
    destruct (MaxSizeLogBuffer.__call__ _ _ _ s) as [s1|e s1]; [|exact Hc].
    simpl in Hc. pose proof (Hexec Flush s1 Hc) as Hf. simpl in Hf.
    destruct (MaxSizeLogBuffer.flush _fn s1) as [s2|e s2]; [|exact Hf].
    now apply Hloop. }
  induction acts as [|a acts IH]; intros sys Hs H; simpl in H.
  - now injection H as <-.
  - destruct (step a sys) as [sys1|] eqn:Hstep; [|discriminate].
    apply (IH sys1); [|exact H]. clear IH H.
    destruct a as [|[o|w]]; simpl in Hstep.
    + destruct (drv sys); [discriminate|]. injection Hstep as <-.
      now apply Hloop.
    + injection Hstep as <-. simpl. now apply Hexec.
    + destruct (drv sys) as [[| |]|]; try discriminate.
      injection Hstep as <-. now apply Hres.
Qed.

Lemma exec_event_follows_size (o : op) (s : state) :
  (0 <= _max_size)%Z ->
  event_follows_size _max_size s ->
  event_follows_size _max_size (state_of (exec o s)).
Proof.
  unfold event_follows_size. intros Hmax Hs.
  destruct o as [message| |]; simpl.
  - unfold MaxSizeLogBuffer.__call__, call_locked.
    destruct (negb (_open (super s))); [exact Hs|].
    destruct (utf8_encode _) as [b|]; [|exact Hs].
    simpl. unfold call_signal. simpl.
    destruct (_size s + Z.of_nat (length b) >? _max_size)%Z eqn:E; simpl.
    + split; [lia|reflexivity].
    + split.
      * intros Hset. apply Hs in Hset. lia.
      * lia.
  - unfold MaxSizeLogBuffer.flush, flush_locked.
    destruct (is_empty (super s)); [exact Hs|].
    destruct (_fn _ _); [exact Hs|]. simpl. split; [discriminate|lia].
  - exact Hs.
Qed.

(** X10. With a limit that is not negative, in every state a run of the
    driver and of the calls of other tasks can reach, the event
    [SizeExceeded] is set exactly when [self._size] is above
    [self._max_size]. *)
Theorem event_set_iff_over_limit (acts : list action) (sys : system) :
  (0 <= _max_size)%Z ->
  steps acts boot = Some sys ->
  SizeExceeded (buf sys) = true <-> (_size (buf sys) > _max_size)%Z.
Proof.
  intros Hmax Hrun.
  apply (steps_invariant (event_follows_size _max_size) acts boot sys).
  - intros o s. now apply exec_event_follows_size.
  - split; [discriminate|]. simpl. lia.
  - exact Hrun.
Qed.
End SizeAwareRuns.

Lemma size_aware_driver_never_returns_witness :
  MaxSizeLogBuffer.drv
    {| MaxSizeLogBuffer.drv :=
         Some (MaxSizeLogBuffer.Failed BufferClosedError);
       MaxSizeLogBuffer.buf := MaxSizeLogBuffer.close MaxSizeLogBuffer.init |}
  = Some MaxSizeLogBuffer.Waiting
  \/ exists e,
       MaxSizeLogBuffer.drv
         {| MaxSizeLogBuffer.drv :=
              Some (MaxSizeLogBuffer.Failed BufferClosedError);
            MaxSizeLogBuffer.buf :=
              MaxSizeLogBuffer.close MaxSizeLogBuffer.init |}
       = Some (MaxSizeLogBuffer.Failed e).
Proof.
  exact (size_aware_driver_never_returns quiet None 120
    MaxSizeLogBuffer.init
    [MaxSizeLogBuffer.Ev (MaxSizeLogBuffer.Client LogBuffer.Close);
     MaxSizeLogBuffer.Ev (MaxSizeLogBuffer.Wake MaxSizeLogBuffer.Timeout)]
    _ eq_refl eq_refl).
Defined.

Lemma marker_encodable (w : MaxSizeLogBuffer.reason) :
  MaxSizeLogBuffer.encodable None (LogBuffer.Call (MaxSizeLogBuffer.marker w)).
Proof. destruct w; discriminate. Defined.

Lemma size_tracks_encodable_messages_witness :
  let s :=
    {| MaxSizeLogBuffer.super :=
         {| LogBuffer._buffer := [lit "abcd"; lit "e"];
            LogBuffer._open := true;
            LogBuffer.fn_calls :=
              [lit "[flusher] maximum buffer time exceeded"] |};
       MaxSizeLogBuffer._size := 5;
       MaxSizeLogBuffer.SizeExceeded := false |} in
  MaxSizeLogBuffer.byte_size (LogBuffer._buffer (MaxSizeLogBuffer.super s))
  = Some (MaxSizeLogBuffer._size s)
  /\ (0 <= MaxSizeLogBuffer._size s)%Z.
Proof.
  exact (size_tracks_encodable_messages quiet None 120
    [MaxSizeLogBuffer.Start;
     MaxSizeLogBuffer.Ev (MaxSizeLogBuffer.Wake MaxSizeLogBuffer.Timeout);
     MaxSizeLogBuffer.Ev (MaxSizeLogBuffer.Client (LogBuffer.Call (lit "abcd")));
     MaxSizeLogBuffer.Ev (MaxSizeLogBuffer.Client (LogBuffer.Call (lit "e")))]
    _ marker_encodable
    ltac:(repeat constructor; discriminate) eq_refl).
Defined.

Lemma event_set_iff_over_limit_witness :
  let s :=
    {| MaxSizeLogBuffer.super :=
         {| LogBuffer._buffer := [lit "abcd"]; LogBuffer._open := true;
            LogBuffer.fn_calls := [] |};
       MaxSizeLogBuffer._size := 4;
       MaxSizeLogBuffer.SizeExceeded := true |} in
  MaxSizeLogBuffer.SizeExceeded s = true
  <-> (MaxSizeLogBuffer._size s > 3)%Z.
Proof.
  exact (event_set_iff_over_limit quiet None 3
    [MaxSizeLogBuffer.Ev
       (MaxSizeLogBuffer.Client (LogBuffer.Call (lit "abcd")))]
    _ ltac:(discriminate) eq_refl).
Defined.

(** ** format.py: lines in, lines out *)

(** X11. When the per-line function never returns a newline,
    [format_message] keeps the lines apart: the result has as many lines as
    the message, line [i] of the result is the per-line function applied
    to line [i] of the message, and formatting the result with a second
    function is formatting the message with the two functions composed. *)
Theorem format_message_keeps_lines (fn g : str -> str) (s t : str) :
  (forall line, ~ In nl (fn line)) ->
  Format.format_message (Format.Text s) fn = Format.Ok t ->
  split nl t = map fn (split nl s)
  /\ length (split nl t) = length (split nl s)
  /\ Format.format_message (Format.Text t) g
     = Format.format_message (Format.Text s) (fun line => g (fn line)).
Proof.
  intros Hfn Ht. unfold Format.format_message in *. injection Ht as <-.
  assert (Hsplit : split nl (join [nl] (map fn (split nl s)))
                   = map fn (split nl s)).
  { apply split_join.
    - induction (split nl s) as [|x l IHl]; simpl; constructor;
        [apply Hfn|exact IHl].
    - pose proof (split_not_nil nl s).
      destruct (split nl s); [contradiction|discriminate]. }
  rewrite Hsplit. split; [reflexivity|]. split; [apply length_map|].
  now rewrite map_map.
Qed.

Lemma format_message_keeps_lines_witness :
  split nl (lit ">" ++ [nl] ++ lit ">")
  = map (fun _ : str => lit ">") (split nl (lit "a" ++ [nl] ++ lit "b")).
Proof.
  exact (proj1 (format_message_keeps_lines (fun _ => lit ">")
    (fun line => line) (lit "a" ++ [nl] ++ lit "b") _
    ltac:(intros line; vm_compute; intuition discriminate) eq_refl)).
Defined.

(** X12. A message without a newline, the empty message included, is
    handed whole to the per-line function, which is called exactly once:
    the result is what that call returns, and an effect of the per-line
    function happens once. *)
Theorem format_message_single_line
    {W : Type} (fn : str -> str) (f : str -> W -> str * W) (s : str) (w : W) :
  ~ In nl s ->
  Format.format_message (Format.Text s) fn = Format.Ok (fn s)
  /\ Clocked.format_message (Format.Text s) f w
     = (Format.Ok (f s w).1, (f s w).2).
Proof.
  intros Hs. unfold Format.format_message, Clocked.format_message.
  rewrite split_no_sep by assumption. simpl.
  split; [reflexivity|]. now destruct (f s w).
Qed.

Lemma format_message_single_line_witness :
  Format.format_message (Format.Text []) (fun line => lit "> " ++ line)
  = Format.Ok (lit "> ").
Proof.
  exact (proj1 (format_message_single_line (fun line => lit "> " ++ line)
    (fun line (w : nat) => (line, S w)) [] 0 (fun H => H))).
Defined.

(** A per-line function without effects formats as in the first model. *)
Lemma clocked_pure {W : Type} (fn : str -> str) (m : Format.message) (w : W) :
  Clocked.format_message m (Clocked.pure fn) w
  = (Format.format_message m fn, w).
Proof.
  unfold Clocked.format_message, Format.format_message.
  destruct (match m with
            | Format.Bytes b => utf8_decode b
            | Format.Text s => Some s
            end) as [text|]; [|reflexivity].
  assert (H : forall lines,
             Clocked.each_line (Clocked.pure fn) lines w
             = (map fn lines, w)).
  { induction lines as [|x l IH]; [reflexivity|].
    simpl. now rewrite IH. }
  now rewrite H.
Qed.

Section Stamps.
Variable T : Type.
Variable time_fn : nat -> T.
Variable strftime : T -> str -> str.
Variable time_format : str.

Local Abbreviation timestamp_format :=
  (Clocked.timestamp_format T time_fn strftime time_format).
Local Abbreviation stamped :=
  (Clocked.stamped T time_fn strftime time_format).

Lemma each_line_stamped (lines : list str) (n : nat) :
  Clocked.each_line timestamp_format lines n
  = (imap (stamped n) lines, n + length lines).
Proof.
  revert n. induction lines as [|x l IH]; intros n.
  - simpl. now rewrite Nat.add_0_r.
  - cbn [Clocked.each_line]. unfold Clocked.timestamp_format at 1.
    rewrite IH. cbn [imap length]. f_equal; [|lia]. f_equal.
    + unfold Clocked.stamped. now rewrite Nat.add_0_r.
    + apply imap_ext. intros i y _. unfold Clocked.stamped.
      cbn [compose]. now rewrite Nat.add_succ_r.
Qed.

(** X13. The timestamp formatter reads the clock once for every line of
    the message, in the order of the lines (one more time than the message
    has newlines), and gives line [i] the prefix made of the [i]-th of
    these readings between "[" and "]: "; the lines themselves are kept
    after their prefixes and the formatted lines are joined by newlines. *)
Theorem timestamp_formatter_stamps_each_line (s : str) (n : nat) :
  Clocked.create_timestamp_formatter T time_fn strftime time_format
    (Format.Text s) n
  = (Format.Ok
       (join [nl]
          (imap (fun i line =>
                   lit "[" ++ strftime (time_fn (n + i)) time_format
                   ++ lit "]: " ++ line)
                (split nl s))),
     n + S (count_occ N.eq_dec s nl)).
Proof.
  unfold Clocked.create_timestamp_formatter, Clocked.format_message.
  rewrite each_line_stamped, split_length. reflexivity.
Qed.
End Stamps.
